(** * WAN simulation scenarios: routing tables, event scheduling, flow reports

    The scenario programs (exercise02 .. exercise06) drive a discrete-event
    network simulation framework.  This development embeds the parts of the
    scenarios that carry logic (the failover handler, the link-failure
    handler, the flow report loops, the attacker clamp, the periodic VoIP
    sender) and, next to them, the framework primitives they call (static
    routing lookup, the event scheduler), the latter modelled from the
    specification because the framework's code is not part of the
    repository. *)

From Stdlib Require Import ZArith Lia Floats Uint63 String.
From stdpp Require Import base tactics option list numbers relations sorting.

Local Open Scope Z_scope.

(** ** Unsigned 32-bit counters *)

Module UInt32.

Definition is_uint32 (z : Z) : Prop := 0 ≤ z < 2 ^ 32.

(** Arithmetic on [uint32_t] wraps around. *)
Definition wrap32 (z : Z) : Z := z mod 2 ^ 32.

End UInt32.

(** ** IPv4 addresses and masks: 32-bit values *)

Module Ipv4.

(** An address or a mask is its 32-bit value; [dotted a b c d] is the value
    of the literal [a.b.c.d]. *)
Definition dotted (a b c d : Z) : Z :=
  Z.lor (Z.lor (Z.shiftl a 24) (Z.shiftl b 16)) (Z.lor (Z.shiftl c 8) d).

(** Modelled from the spec: the framework's mask test is missing; an
    entry's network/mask "contains" an address when both agree on the bits
    selected by the mask. *)
Definition IsMatch (mask a b : Z) : bool :=
  Z.land a mask =? Z.land b mask.

(** Modelled from the spec: the framework's prefix-length accessor is
    missing; the length of a mask is the number of bits set among its 32
    bits. *)
Definition GetPrefixLength (mask : Z) : nat :=
  length (filter (λ i : nat, Z.testbit mask (Z.of_nat i) = true) (seq 0 32)).

End Ipv4.

(** ** Static routing tables *)

Module Routing.
Import Ipv4.

(** Modelled from the spec: the framework's routing entry is missing;
    "RoutingEntry: {destination network (address+mask), next-hop address,
    egress interface, metric}", under the accessor names the scenarios
    call. *)
Record Ipv4RoutingTableEntry := mkRoute {
  GetDestNetwork : Z;
  GetDestNetworkMask : Z;
  GetGateway : Z;
  GetInterface : Z;
  GetMetric : Z
}.

(** A table is the list of its entries in insertion order. *)
Abbreviation table := (list Ipv4RoutingTableEntry).

(** Modelled from the spec: the framework's indexed accessors are missing;
    they count, read and remove the entries by position in insertion
    order. *)
Definition GetNRoutes (t : table) : nat := length t.
Definition GetRoute (t : table) (i : nat) : option Ipv4RoutingTableEntry := t !! i.
Definition RemoveRoute (i : nat) (t : table) : table := delete i t.

(** Modelled from the spec: "A Node's Routing Table is a set of
    RoutingEntry"; "A RoutingEntry's (destination, next-hop, interface)
    triple is unique per Node; re-adding an identical destination/mask
    with a different next-hop coexists only if metrics differ".  A table
    may not hold [new] beside [e] when both have the same destination
    network and mask and either the same next hop and interface, or
    different next hops and the same metric. *)
Definition conflicts (new e : Ipv4RoutingTableEntry) : Prop :=
  GetDestNetwork e = GetDestNetwork new
  ∧ GetDestNetworkMask e = GetDestNetworkMask new
  ∧ ((GetGateway e = GetGateway new ∧ GetInterface e = GetInterface new)
     ∨ (GetGateway e ≠ GetGateway new ∧ GetMetric e = GetMetric new)).

#[global] Instance conflicts_dec new e : Decision (conflicts new e).
Proof. unfold conflicts. apply _. Defined.

(** Modelled from the spec: the framework's [AddNetworkRouteTo] is missing;
    "add_route(node, destination_network, mask, next_hop, interface,
    metric)", for which the spec names no error.  An entry that the table
    may hold is appended, so that list order is insertion order; an entry
    that it may not hold beside one of its entries is not added, the table
    being a set that stays as it is. *)
Definition AddNetworkRouteTo (t : table) (dest mask nextHop interface metric : Z) : table :=
  let new := mkRoute dest mask nextHop interface metric in
  if decide (Exists (conflicts new) t) then t else t ++ [new].

Definition Contains (a : Z) (e : Ipv4RoutingTableEntry) : Prop :=
  IsMatch (GetDestNetworkMask e) a (GetDestNetwork e) = true.

#[global] Instance Contains_dec a e : Decision (Contains a e).
Proof. unfold Contains. apply _. Defined.

Definition PrefixLen (e : Ipv4RoutingTableEntry) : nat :=
  GetPrefixLength (GetDestNetworkMask e).

Definition longest_mask (l : table) : nat :=
  foldr Nat.max 0%nat (PrefixLen <$> l).

Definition lowest_metric (l : table) : Z :=
  match l with
  | [] => 0
  | e :: l' => foldr Z.min (GetMetric e) (GetMetric <$> l')
  end.

(** Modelled from the spec: the framework's lookup is missing.  "Filter
    entries whose network/mask contains the address; among matches choose
    longest mask; among equal-length masks choose lowest metric; among
    equal metric choose earliest inserted."  [None] is [Unreachable]. *)
Definition LookupStatic (t : table) (a : Z) : option Ipv4RoutingTableEntry :=
  let matches := filter (Contains a) t in
  let longest := filter (λ e, PrefixLen e = longest_mask matches) matches in
  let cheapest := filter (λ e, GetMetric e = lowest_metric longest) longest in
  head cheapest.

(** Modelled from the spec: "lookup(node, destination_address) ->
    (next_hop, interface) | Unreachable". *)
Definition lookup (t : table) (a : Z) : option (Z * Z) :=
  (λ e, (GetGateway e, GetInterface e)) <$> LookupStatic t a.

(** [e] at position [i] is preferred to [e'] at position [j]: longer
    prefix, then lower metric, then earlier insertion. *)
Definition preferred (e : Ipv4RoutingTableEntry) (i : nat)
                     (e' : Ipv4RoutingTableEntry) (j : nat) : Prop :=
  (PrefixLen e' < PrefixLen e)%nat ∨
  (PrefixLen e' = PrefixLen e ∧
   (GetMetric e < GetMetric e' ∨ (GetMetric e = GetMetric e' ∧ (i ≤ j)%nat))).

(** The table of HQ in exercise02 (two routes to 10.1.3.0/24). *)
Definition hq_table : table :=
  AddNetworkRouteTo
    (AddNetworkRouteTo [] (dotted 10 1 3 0) (dotted 255 255 255 0) (dotted 10 1 1 2) 1 0)
    (dotted 10 1 3 0) (dotted 255 255 255 0) (dotted 10 1 2 2) 2 10.

(** The table of DC-A in exercise03, by routing type. *)
Definition dca_primary : table :=
  AddNetworkRouteTo [] (dotted 10 1 4 0) (dotted 255 255 255 0) (dotted 10 1 4 2) 2 10.

Definition dca_manual_failover : table :=
  AddNetworkRouteTo
    (AddNetworkRouteTo dca_primary
       (dotted 10 1 4 0) (dotted 255 255 255 0) (dotted 10 1 3 2) 3 50)
    (dotted 10 1 4 0) (dotted 255 255 255 0) (dotted 10 1 5 2) 4 100.

End Routing.


(** ** Clock, event queue and scheduler

    The scenarios call [Simulator::Schedule], [Simulator::Cancel],
    [Simulator::Now], [Simulator::Stop] and [Simulator::Run]; the simulator
    itself belongs to the framework.  The module follows the
    specification's sections 3 (Clock, Event), 4.1 (Clock and Event Queue)
    and 4.2 (Scheduler). *)

Module Scheduler.

(** Modelled from the spec: the result of [schedule] is missing; it is a
    handle (the insertion sequence number of the event), or the error of a
    negative delay. *)
Inductive schedule_result :=
| Handle (h : nat)
| InvalidDelay.

Section Sim.
(** [A] names the actions a scenario schedules; [W] is the state the
    actions work on (routing tables, interfaces, applications). *)
Context {A W : Type}.

(** Modelled from the spec: "Event: {scheduled_time, insertion_sequence,
    action}", with the mark that makes a cancelled event inert. *)
Record Event := mkEvent {
  scheduled_time : Z;
  insertion_sequence : nat;
  action : A;
  cancelled : bool
}.

(** Modelled from the spec: the simulator's state is missing; it holds
    the clock, the sequence counter and the pending events, and here also
    the trace of the events executed so far, oldest first. *)
Record Sim := mkSim {
  clock : Z;
  next_sequence : nat;
  queue : list Event;
  executed : list Event
}.

Definition init : Sim := mkSim 0 0 [] [].

(** Modelled from the spec: "Ordered by (scheduled_time ascending,
    insertion_sequence ascending)". *)
Definition event_lt (e1 e2 : Event) : Prop :=
  scheduled_time e1 < scheduled_time e2 ∨
  (scheduled_time e1 = scheduled_time e2 ∧
   (insertion_sequence e1 < insertion_sequence e2)%nat).

Definition event_le (e1 e2 : Event) : Prop :=
  scheduled_time e1 < scheduled_time e2 ∨
  (scheduled_time e1 = scheduled_time e2 ∧
   (insertion_sequence e1 ≤ insertion_sequence e2)%nat).

Definition event_ltb (e1 e2 : Event) : bool :=
  (scheduled_time e1 <? scheduled_time e2) ||
  ((scheduled_time e1 =? scheduled_time e2) &&
   (insertion_sequence e1 <? insertion_sequence e2)%nat).

(** Modelled from the spec: "inserts into queue ordered by (now()+delay,
    monotonic sequence)". *)
Fixpoint enqueue (e : Event) (q : list Event) : list Event :=
  match q with
  | [] => [e]
  | e' :: q' => if event_ltb e e' then e :: q else e' :: enqueue e q'
  end.

(** Modelled from the spec: "now() -> time". *)
Definition now (s : Sim) : Z := clock s.

(** Modelled from the spec: "schedule(delay, action) -> handle ... fails
    with InvalidDelay when delay is negative", nothing being enqueued
    then. *)
Definition schedule (delay : Z) (a : A) (s : Sim) : schedule_result * Sim :=
  if delay <? 0 then (InvalidDelay, s)
  else
    let h := next_sequence s in
    (Handle h,
     mkSim (clock s) (S h)
           (enqueue (mkEvent (clock s + delay) h a false) (queue s))
           (executed s)).

Definition mark_inert (h : nat) (e : Event) : Event :=
  if (insertion_sequence e =? h)%nat
  then mkEvent (scheduled_time e) (insertion_sequence e) (action e) true
  else e.

(** Modelled from the spec: "May be cancelled (marked inert) before
    execution"; "cancelling an already-executed or already-cancelled
    handle is a no-op": an executed event has left the queue. *)
Definition cancel (h : nat) (s : Sim) : Sim :=
  mkSim (clock s) (next_sequence s) (mark_inert h <$> queue s) (executed s).

(** Modelled from the spec: a handle is pending while its event is in the
    queue and has not been cancelled. *)
Definition is_pending (h : nat) (s : Sim) : bool :=
  existsb (λ e, (insertion_sequence e =? h)%nat && negb (cancelled e)) (queue s).

(** Modelled from the spec: the code of an action is a caller of the
    simulator; it reaches the simulator only through these calls, each
    answered by the simulator before the action goes on. *)
Inductive prog (X : Type) : Type :=
| Ret (x : X)
| CallSchedule (delay : Z) (a : A) (k : schedule_result → prog X)
| CallCancel (h : nat) (k : prog X)
| CallIsPending (h : nat) (k : bool → prog X)
| CallNow (k : Z → prog X).
Global Arguments Ret {X} x.
Global Arguments CallSchedule {X} delay a k.
Global Arguments CallCancel {X} h k.
Global Arguments CallIsPending {X} h k.
Global Arguments CallNow {X} k.

Fixpoint bind {X Y : Type} (p : prog X) (f : X → prog Y) : prog Y :=
  match p with
  | Ret x => f x
  | CallSchedule d a k => CallSchedule d a (λ r, bind (k r) f)
  | CallCancel h k => CallCancel h (bind k f)
  | CallIsPending h k => CallIsPending h (λ b, bind (k b) f)
  | CallNow k => CallNow (λ t, bind (k t) f)
  end.

Fixpoint run {X : Type} (p : prog X) (s : Sim) : X * Sim :=
  match p with
  | Ret x => (x, s)
  | CallSchedule d a k => let (r, s') := schedule d a s in run (k r) s'
  | CallCancel h k => run k (cancel h s)
  | CallIsPending h k => run (k (is_pending h s)) s
  | CallNow k => run (k (now s)) s
  end.

(** An action that never calls [cancel]. *)
Inductive cancel_free {X : Type} : prog X → Prop :=
| cf_ret x : cancel_free (Ret x)
| cf_schedule d a k : (∀ r, cancel_free (k r)) → cancel_free (CallSchedule d a k)
| cf_is_pending h k : (∀ b, cancel_free (k b)) → cancel_free (CallIsPending h k)
| cf_now k : (∀ t, cancel_free (k t)) → cancel_free (CallNow k).

(** What each action does to the scenario state. *)
Variable body : A → W → prog W.

(** The clock moved to the popped event, which leaves the queue. *)
Definition advance (e : Event) (q : list Event) (s : Sim) : Sim :=
  mkSim (scheduled_time e) (next_sequence s) q (executed s).

Definition record_execution (e : Event) (s : Sim) : Sim :=
  mkSim (clock s) (next_sequence s) (queue s) (executed s ++ [e]).

Definition execute (e : Event) (s : Sim) (w : W) : Sim * W :=
  let (w', s') := run (body (action e) w) (record_execution e s) in (s', w').

(** Modelled from the spec: "if queue empty or next event's time >
    stop_time, stop; otherwise pop earliest event, advance Clock to its
    time, execute its action unless cancelled". *)
Definition step (stop_time : Z) (st : Sim * W) : option (Sim * W) :=
  let (s, w) := st in
  match queue s with
  | [] => None
  | e :: q =>
      if stop_time <? scheduled_time e then None
      else
        let s1 := advance e q s in
        if cancelled e then Some (s1, w) else Some (execute e s1 w)
  end.

(** Modelled from the spec: [run_until(stop_time)], "repeatedly" taking
    the step above; [fuel] bounds the number of pops. *)
Fixpoint run_until (fuel : nat) (stop_time : Z) (st : Sim * W) : Sim * W :=
  match fuel with
  | O => st
  | S n =>
      match step stop_time st with
      | None => st
      | Some st' => run_until n stop_time st'
      end
  end.

(** The external schedule calls of a scenario's setup, made in order at
    time zero. *)
Definition setup (calls : list (Z * A)) : Sim :=
  foldl (λ s c, (schedule c.1 c.2 s).2) init calls.

(** Events that all carry the time [T], numbered from [k] on. *)
Fixpoint events_at (T : Z) (k : nat) (acts : list A) : list Event :=
  match acts with
  | [] => []
  | a :: acts' => mkEvent T k a false :: events_at T (S k) acts'
  end.

(** Modelled from the spec: "pop earliest event".  The same scheduler as
    a step relation, in which the event to pop is any pending event that no
    pending event precedes in the order (time, insertion sequence). *)
Definition earliest (q : list Event) (e : Event) : Prop :=
  e ∈ q ∧ ∀ e', e' ∈ q → event_le e e'.

Definition dequeue (e : Event) (q : list Event) : list Event :=
  filter (λ e', insertion_sequence e' ≠ insertion_sequence e) q.

(** Modelled from the spec: one turn of [run_until], as a relation between
    the states before and after. *)
Inductive sched_step (stop_time : Z) : Sim * W → Sim * W → Prop :=
| step_execute s w e :
    earliest (queue s) e →
    scheduled_time e ≤ stop_time →
    cancelled e = false →
    sched_step stop_time (s, w) (execute e (advance e (dequeue e (queue s)) s) w)
| step_skip s w e :
    earliest (queue s) e →
    scheduled_time e ≤ stop_time →
    cancelled e = true →
    sched_step stop_time (s, w) (advance e (dequeue e (queue s)) s, w).

(** The run is over: "queue exhausted or stop_time reached". *)
Definition halted (stop_time : Z) (st : Sim * W) : Prop :=
  ∀ st', ¬ sched_step stop_time st st'.

(** The queue discipline every reachable simulator state obeys. *)
Record wf (s : Sim) : Prop := mkWf {
  wf_sorted : StronglySorted event_lt (queue s);
  wf_future : Forall (λ e, clock s ≤ scheduled_time e) (queue s);
  wf_fresh : Forall (λ e, (insertion_sequence e < next_sequence s)%nat) (queue s);
  wf_unique : NoDup (insertion_sequence <$> queue s);
  wf_trace_sorted : StronglySorted event_lt (executed s);
  wf_trace_past :
    Forall (λ e, scheduled_time e ≤ clock s ∧
                 (insertion_sequence e < next_sequence s)%nat) (executed s);
  wf_trace_before :
    Forall (λ e, Forall (event_lt e) (queue s)) (executed s)
}.

End Sim.

Global Arguments Event : clear implicits.
Global Arguments Sim : clear implicits.
Global Arguments prog : clear implicits.

End Scheduler.

(** ** Scenario times *)

(** The framework's time constructors; simulation time is counted in
    nanoseconds. *)
Definition Seconds (s : Z) : Z := s * 1000000000.
Definition MilliSeconds (ms : Z) : Z := ms * 1000000.

(** ** exercise02: triangular WAN, interfaces disabled at t = 6 s *)

Module Exercise02.
Import Scheduler.

(** For each node, the up/down flag of each of its interfaces. *)
Definition world := list (list bool).

Inductive callback :=
| ADisableInterface (node : nat) (interfaceIndex : nat).

(** Modelled from the spec: the framework's [SetDown] is missing;
    "set_interface_up(node, ifindex, bool) toggles the flag". *)
Definition SetDown (interfaceIndex : nat) (ipv4 : list bool) : list bool :=
  <[interfaceIndex := false]> ipv4.

(** [DisableInterface]: nothing happens for a node without IPv4 object. *)
Definition DisableInterface (node interfaceIndex : nat) (w : world) : world :=
  match w !! node with
  | Some ipv4 => <[node := SetDown interfaceIndex ipv4]> w
  | None => w
  end.

Definition body (a : callback) (w : world) : prog callback world :=
  match a with
  | ADisableInterface node i => Ret (DisableInterface node i w)
  end.

(** HQ, Branch and DC: loopback and two point-to-point interfaces each. *)
Definition main_world : world := replicate 3 (replicate 3 true).

(** The two [Simulator::Schedule] calls of [main]. *)
Definition main_calls : list (Z * callback) :=
  [(Seconds 6, ADisableInterface 0 2); (Seconds 6, ADisableInterface 2 1)].

Definition main_stop : Z := Seconds 16.

End Exercise02.

(** ** exercise03: regional bank WAN, link failure and manual failover *)

Module Exercise03.
Import UInt32 Ipv4 Routing Scheduler.

(** What [GetRoutingProtocol] gives for a node.  The default internet
    stack, which main installs on every node, sets up a list routing; the
    static routing it holds is reached through [GetStaticRouting] only.  A
    stack set up with a static routing helper has the static routing
    itself as its routing protocol. *)
Inductive RoutingProtocol :=
| Ipv4ListRouting
| Ipv4StaticRouting.

Record World := mkWorld {
  (** static routing table of each node, by node id *)
  routes : list (list Ipv4RoutingTableEntry);
  (** data rate in bit/s of each point-to-point device, by device id *)
  dataRate : list Z;
  totalPacketsSent : Z;
  totalPacketsReceived : Z;
  convergenceStartTime : Z;
  convergenceEndTime : Z;
  failureOccurred : bool;
  backupRouteActivated : bool;
  (** routing protocol of each node, by node id *)
  routingProtocol : list RoutingProtocol
}.

Definition TxTrace (w : World) : World :=
  mkWorld (routes w) (dataRate w) (wrap32 (totalPacketsSent w + 1)) (totalPacketsReceived w)
          (convergenceStartTime w) (convergenceEndTime w)
          (failureOccurred w) (backupRouteActivated w) (routingProtocol w).

Definition RxTrace (w : World) : World :=
  mkWorld (routes w) (dataRate w) (totalPacketsSent w) (wrap32 (totalPacketsReceived w + 1))
          (convergenceStartTime w) (convergenceEndTime w)
          (failureOccurred w) (backupRouteActivated w) (routingProtocol w).

(** [SimulateLinkFailure]: the device's rate drops to 1 bit/s. *)
Definition SimulateLinkFailure (now : Z) (device : nat) (w : World) : World :=
  mkWorld (routes w) (<[device := 1]> (dataRate w))
          (totalPacketsSent w) (totalPacketsReceived w)
          now (convergenceEndTime w)
          true (backupRouteActivated w) (routingProtocol w).

(** The loop of [ActivateBackupRoute] that looks for the old route: index
    of the first entry with this destination network and mask. *)
Fixpoint find_old_route (destNetwork mask : Z) (t : table) (i : nat) : option nat :=
  match t with
  | [] => None
  | route :: t' =>
      if (GetDestNetwork route =? destNetwork) && (GetDestNetworkMask route =? mask)
      then Some i
      else find_old_route destNetwork mask t' (S i)
  end.

Definition same_network (destNetwork mask : Z) (r : Ipv4RoutingTableEntry) : Prop :=
  GetDestNetwork r = destNetwork ∧ GetDestNetworkMask r = mask.

Definition remove_old_route (destNetwork mask : Z) (t : table) : table :=
  match find_old_route destNetwork mask t 0 with
  | Some i => RemoveRoute i t
  | None => t
  end.

(** [dynamic_cast<Ipv4StaticRouting*>(PeekPointer(routing))] on the routing
    protocol of the node: the node's static table when the protocol is a
    static routing, a null pointer ([None]) when it is a list routing. *)
Definition cast_to_static (w : World) (node : nat) : option table :=
  match routingProtocol w !! node with
  | Some Ipv4StaticRouting => routes w !! node
  | _ => None
  end.

(** [ActivateBackupRoute]; when the cast yields a null pointer nothing is
    done. *)
Definition ActivateBackupRoute (now : Z) (node : nat)
           (destNetwork mask nextHop interface : Z) (w : World) : World :=
  match cast_to_static w node with
  | Some staticRouting =>
      let removed := remove_old_route destNetwork mask staticRouting in
      let added := AddNetworkRouteTo removed destNetwork mask nextHop interface 50 in
      mkWorld (<[node := added]> (routes w)) (dataRate w)
              (totalPacketsSent w) (totalPacketsReceived w)
              (convergenceStartTime w) now
              (failureOccurred w) true (routingProtocol w)
  | None => w
  end.

Inductive callback :=
| ASimulateLinkFailure (device : nat)
| AActivateBackupRoute (node : nat) (destNetwork mask nextHop interface : Z)
| ARecomputeRoutingTables
| ATxTrace
| ARxTrace.

(** [ARecomputeRoutingTables] acts on the framework's global routing,
    which is no part of the scenario state. *)
Definition body (a : callback) (w : World) : prog callback World :=
  match a with
  | ASimulateLinkFailure device => CallNow (λ t, Ret (SimulateLinkFailure t device w))
  | AActivateBackupRoute node destNetwork mask nextHop interface =>
      CallNow (λ t, Ret (ActivateBackupRoute t node destNetwork mask nextHop interface w))
  | ARecomputeRoutingTables => Ret w
  | ATxTrace => Ret (TxTrace w)
  | ARxTrace => Ret (RxTrace w)
  end.

(** Node ids, as created in [main]. *)
Definition branchC : nat := 0.
Definition dcA : nat := 1.
Definition drB : nat := 2.
Definition backupRouter : nat := 3.

(** Device ids: the two ends of the primary WAN link (network 4). *)
Definition dcAPrimaryDev : nat := 2.
Definition drBPrimaryDev : nat := 3.

Definition mask24 : Z := dotted 255 255 255 0.

(** The static routes [main] configures, by routing type. *)
Definition main_routes (routingType : string) : list table :=
  if String.eqb routingType "global" then [[]; []; []; []]
  else
    let manual := String.eqb routingType "manual-failover" in
    [ AddNetworkRouteTo [] (dotted 10 1 4 0) mask24 (dotted 10 1 1 2) 1 10;
      (if manual then dca_manual_failover else dca_primary);
      (let primary := AddNetworkRouteTo [] (dotted 10 1 1 0) mask24 (dotted 10 1 4 1) 1 10 in
       if manual
       then AddNetworkRouteTo primary (dotted 10 1 1 0) mask24 (dotted 10 1 3 1) 2 50
       else primary);
      AddNetworkRouteTo [] (dotted 10 1 4 0) mask24 (dotted 10 1 6 2) 2 10 ].

(** The state main sets up: the default internet stack on all four
    nodes. *)
Definition main_world (routingType : string) (primaryRate : Z) : World :=
  mkWorld (main_routes routingType)
          [100000000; 100000000; primaryRate; primaryRate;
           2000000; 2000000; 5000000; 5000000; 5000000; 5000000]
          0 0 0 0 false false
          (replicate 4 Ipv4ListRouting).

(** The same set-up on a stack whose routing protocol is the static
    routing itself on every node: a state main does not produce, in which
    the cast of [ActivateBackupRoute] succeeds. *)
Definition static_stack_world (routingType : string) (primaryRate : Z) : World :=
  let w := main_world routingType primaryRate in
  mkWorld (routes w) (dataRate w) (totalPacketsSent w) (totalPacketsReceived w)
          (convergenceStartTime w) (convergenceEndTime w)
          (failureOccurred w) (backupRouteActivated w)
          (replicate 4 Ipv4StaticRouting).

(** The [Simulator::Schedule] calls of [main], by routing type;
    [failureTime] in nanoseconds. *)
Definition main_calls (routingType : string) (failureTime : Z) : list (Z * callback) :=
  [(failureTime, ASimulateLinkFailure dcAPrimaryDev);
   (failureTime, ASimulateLinkFailure drBPrimaryDev)]
  ++ (if String.eqb routingType "manual-failover"
      then [(failureTime + Seconds 2,
             AActivateBackupRoute dcA (dotted 10 1 4 0) mask24 (dotted 10 1 3 2) 3)]
      else if String.eqb routingType "global"
      then [(failureTime + MilliSeconds 100, ARecomputeRoutingTables)]
      else []).

(** State of the scenario after the events up to [stop_time]. *)
Definition main_run (routingType : string) (failureTime : Z) (fuel : nat) (stop_time : Z)
  : Sim callback * World :=
  run_until body fuel stop_time
    (setup (main_calls routingType failureTime), main_world routingType 10000000).

End Exercise03.

(** ** Flow reports (exercise02, exercise03) *)

Module FlowReport.
Import UInt32.

(** Counters of one flow, as the flow monitor hands them to the report
    loops: packet counts are 32-bit, byte counts 64-bit; the delay and
    jitter sums are taken in seconds, as [GetSeconds()] returns them. *)
Record FlowStats := mkFlowStats {
  txPackets : Z;
  rxPackets : Z;
  rxBytes : Z;
  delaySum : float;
  jitterSum : float
}.

(** Conversion of an unsigned integer to double (packet counts are below
    2^32; byte counts are taken below 2^63). *)
Definition to_double (z : Z) : float := PrimFloat.of_uint63 (Uint63.of_Z z).

(** What a report loop prints for a flow; [None]: the line is not
    computed. *)
Record Report := mkReport {
  packetLoss : option float;
  meanDelay : option float;
  meanJitter : option float;
  throughput : option float
}.

(** The divisor of the jitter line: [rxPackets - 1], in 32 bits. *)
Definition jitter_divisor (f : FlowStats) : Z := wrap32 (rxPackets f - 1).

(** exercise02: loss in percent, delay and jitter in milliseconds. *)
Definition report02 (f : FlowStats) : Report :=
  let loss := (to_double (wrap32 (txPackets f - rxPackets f)) * 100 / to_double (txPackets f))%float in
  if 0 <? rxPackets f
  then mkReport (Some loss)
                (Some (delaySum f / to_double (rxPackets f) * 1000)%float)
                (Some (jitterSum f / to_double (jitter_divisor f) * 1000)%float)
                None
  else mkReport (Some loss) None None None.

(** exercise03: loss in percent, delay and jitter in seconds, throughput
    in Mbit/s over the time the client is active. *)
Definition report03 (simulationTime : float) (f : FlowStats) : Report :=
  if 0 <? txPackets f
  then
    let lossRate :=
      (100 * to_double (wrap32 (txPackets f - rxPackets f)) / to_double (txPackets f))%float in
    if 0 <? rxPackets f
    then mkReport (Some lossRate)
                  (Some (delaySum f / to_double (rxPackets f))%float)
                  (Some (jitterSum f / to_double (jitter_divisor f))%float)
                  (Some (to_double (rxBytes f) * 8 / (simulationTime - 2) / 1000000)%float)
    else mkReport (Some lossRate) None None None
  else mkReport None None None None.

(** A value that came out of a division by zero or of 0/0. *)
Definition not_finite (x : float) : bool :=
  PrimFloat.is_nan x || PrimFloat.is_infinity x.

End FlowReport.

(** ** exercise06: attacker nodes *)

Module Exercise06.
Import UInt32 Ipv4.

(** [std::min(numAttackers, (uint32_t)5)]. *)
Definition limit_attackers (numAttackers : Z) : Z := Z.min numAttackers 5.

Record Topology := mkTopology {
  (** node ids of the attacker nodes; ids 0, 1, 2 are client, router, server *)
  attackers : list nat;
  (** one point-to-point link router - attacker per attacker *)
  attackDevicePairs : list (nat * nat);
  (** base address of the subnet of each attack link *)
  attackNetworks : list Z
}.

(** Modelled from the spec: the framework's [NodeContainer::Create] is
    missing; [Create n] makes [n] nodes with the next free ids. *)
Definition Create (first_id : nat) (n : Z) : list nat := seq first_id (Z.to_nat n).

Definition nth_attacker (l : list nat) (i : nat) : nat := default 0%nat (l !! i).

(** The part of [main] that creates attackers, links and subnets from the
    value of the [attackers] command-line parameter. *)
Definition main_topology (requested : Z) : Topology :=
  let numAttackers := limit_attackers requested in
  let attackers := Create 3 numAttackers in
  let indices := seq 0 (Z.to_nat numAttackers) in
  mkTopology attackers
             ((λ i, (1%nat, nth_attacker attackers i)) <$> indices)
             ((λ i, dotted 10 1 (3 + Z.of_nat i) 0) <$> indices).

End Exercise06.

(** ** exercise05: the periodic VoIP sender *)

Module Exercise05.
Import UInt32 Scheduler.

Inductive callback :=
| AStartApplication
| AStopApplication
| ASendPacket.

#[global] Instance callback_eq_dec : EqDecision callback.
Proof. solve_decision. Defined.

(** A UDP socket, as far as the application uses it: its ToS byte,
    whether it was closed, and the packets handed to [Send] (size and
    timestamp tag), latest last. *)
Record Socket := mkSocket {
  ipTos : Z;
  closed : bool;
  sent : list (Z * Z)
}.

Record VoipApplication := mkVoip {
  m_socket : option Socket;
  m_packetSize : Z;
  m_interval : Z;
  (** [None]: the default [EventId], which is never pending *)
  m_sendEvent : option nat;
  m_running : bool;
  m_packetsSent : Z;
  m_dscp : Z
}.

Definition call_schedule (delay : Z) (a : callback) : prog callback schedule_result :=
  CallSchedule delay a Ret.
Definition call_cancel (h : nat) : prog callback unit := CallCancel h (Ret ()).
Definition call_is_pending (h : nat) : prog callback bool := CallIsPending h Ret.
Definition call_now : prog callback Z := CallNow Ret.

#[global] Instance prog_ret : MRet (prog callback) := λ X x, Ret x.
#[global] Instance prog_bind : MBind (prog callback) := λ X Y f p, bind p f.

Definition event_id (r : schedule_result) : option nat :=
  match r with
  | Handle h => Some h
  | InvalidDelay => None
  end.

Definition ScheduleTx (app : VoipApplication) : prog callback VoipApplication :=
  if m_running app then
    r ← call_schedule (m_interval app) ASendPacket;
    mret (mkVoip (m_socket app) (m_packetSize app) (m_interval app) (event_id r)
                 (m_running app) (m_packetsSent app) (m_dscp app))
  else mret app.

(** DSCP in the top six bits of the ToS byte. *)
Definition tos_of_dscp (dscp : Z) : Z := Z.shiftl dscp 2 mod 256.

Definition StartApplication (app : VoipApplication) : prog callback VoipApplication :=
  let socket :=
    match m_socket app with
    | None => mkSocket (tos_of_dscp (m_dscp app)) false []
    | Some socket => socket
    end in
  ScheduleTx (mkVoip (Some socket) (m_packetSize app) (m_interval app) (m_sendEvent app)
                     true 0 (m_dscp app)).

Definition Close (socket : Socket) : Socket :=
  mkSocket (ipTos socket) true (sent socket).

Definition StopApplication (app : VoipApplication) : prog callback VoipApplication :=
  pending ← match m_sendEvent app with
            | Some h => call_is_pending h
            | None => mret false
            end;
  _ ← match m_sendEvent app with
      | Some h => if (pending : bool) then call_cancel h else mret ()
      | None => mret ()
      end;
  mret (mkVoip (Close <$> m_socket app) (m_packetSize app) (m_interval app)
               (m_sendEvent app) false (m_packetsSent app) (m_dscp app)).

Definition Send (packet : Z * Z) (socket : Socket) : Socket :=
  mkSocket (ipTos socket) (closed socket) (sent socket ++ [packet]).

Definition SendPacket (app : VoipApplication) : prog callback VoipApplication :=
  timestamp ← call_now;
  ScheduleTx (mkVoip (Send (m_packetSize app, timestamp) <$> m_socket app)
                     (m_packetSize app) (m_interval app) (m_sendEvent app)
                     (m_running app) (wrap32 (m_packetsSent app + 1)) (m_dscp app)).

Definition body (a : callback) (app : VoipApplication) : prog callback VoipApplication :=
  match a with
  | AStartApplication => StartApplication app
  | AStopApplication => StopApplication app
  | ASendPacket => SendPacket app
  end.

(** The packets the application has handed to its socket. *)
Definition packets (app : VoipApplication) : list (Z * Z) :=
  from_option sent [] (m_socket app).

(** Every send event still to run is the one [m_sendEvent] refers to. *)
Definition send_tracked (s : Sim callback) (app : VoipApplication) : Prop :=
  Forall (λ e, action e = ASendPacket → cancelled e = false →
               m_sendEvent app = Some (insertion_sequence e)) (queue s).

(** No start of the application is still to run. *)
Definition no_start_pending (s : Sim callback) : Prop :=
  Forall (λ e, action e = AStartApplication → cancelled e = true) (queue s).

(** Only stop events are still to run, and the application is stopped. *)
Definition quiet (s : Sim callback) (app : VoipApplication) : Prop :=
  m_running app = false ∧
  Forall (λ e, cancelled e = false → action e = AStopApplication) (queue s).

(** In a trace, no send is executed after a stop. *)
Definition no_send_after_stop (trace : list (Event callback)) : Prop :=
  ∀ i j ei ej,
    (i < j)%nat → trace !! i = Some ei → trace !! j = Some ej →
    action ei = AStopApplication → action ej ≠ ASendPacket.

(** The application as [main] creates it (160 bytes every 20 ms, DSCP 46)
    and the two events its start and stop times stand for. *)
Definition voipApp : VoipApplication :=
  mkVoip None 160 (MilliSeconds 20) None false 0 46.

Definition main_calls : list (Z * callback) :=
  [(Seconds 1, AStartApplication); (Seconds 14, AStopApplication)].

(** The scenario when the stop event is the next to run: the start and
    649 sends have been executed. *)
Definition before_stop : Sim callback * VoipApplication :=
  run_until body 650 (Seconds 15) (setup main_calls, voipApp).

(** The application once [StopApplication] has returned. *)
Definition stopped (app : VoipApplication) : VoipApplication :=
  mkVoip (Close <$> m_socket app) (m_packetSize app) (m_interval app)
         (m_sendEvent app) false (m_packetsSent app) (m_dscp app).

End Exercise05.

(** ** exercise05: the whole life of the VoIP sender *)

Module Exercise05Lifecycle.
Import UInt32 Scheduler Exercise05.

(** [VoipApplication::VoipApplication()]. *)
Definition VoipApplication_new : VoipApplication :=
  mkVoip None 0 (Seconds 1) None false 0 0.

(** [VoipApplication::Setup]: the start and stop times it is given are not
    stored (the peer address is not part of the model). *)
Definition Setup (packetSize interval startTime stopTime dscp : Z)
           (app : VoipApplication) : VoipApplication :=
  mkVoip (m_socket app) packetSize interval (m_sendEvent app)
         (m_running app) (m_packetsSent app) dscp.

(** [SetStartTime] and [SetStopTime], as main calls them on the
    application: the framework's application base class (no part of the
    repository) turns them into the first two events of the run, the
    start scheduled before the stop. *)
Definition lifecycle_calls (startTime stopTime : Z) : list (Z * callback) :=
  [(startTime, AStartApplication); (stopTime, AStopApplication)].

(** The run of an application created, set up and given its start and stop
    times as in [main]. *)
Definition lifecycle (packetSize interval dscp startTime stopTime : Z)
           (fuel : nat) (stop_time : Z) : Sim callback * VoipApplication :=
  run_until body fuel stop_time
    (setup (lifecycle_calls startTime stopTime),
     Setup packetSize interval startTime stopTime dscp VoipApplication_new).

(** Packets number 1 to [j] of a sender started at [a] with interval [d]:
    size and timestamp. *)
Definition packets_until (packetSize a d : Z) (j : nat) : list (Z * Z) :=
  (λ i : nat, (packetSize, a + Z.of_nat i * d)) <$> seq 1 j.

(** How many multiples of the interval lie strictly between start and
    stop. *)
Definition packets_before_stop (a b d : Z) : nat := Z.to_nat ((b - a - 1) / d).

Definition send_events (a d : Z) (j : nat) : list (Event callback) :=
  (λ i : nat, mkEvent (a + Z.of_nat i * d) (S i) ASendPacket false) <$> seq 1 j.

(** The simulator and the application once the start and [j] sends have
    been executed. *)
Definition running_state (packetSize d dscp a b : Z) (j : nat)
  : Sim callback * VoipApplication :=
  (mkSim (a + Z.of_nat j * d) (3 + j)
         (enqueue (mkEvent (a + Z.of_nat (S j) * d) (2 + j) ASendPacket false)
                  [mkEvent b 1 AStopApplication false])
         (mkEvent a 0 AStartApplication false :: send_events a d j),
   mkVoip (Some (mkSocket (tos_of_dscp dscp) false (packets_until packetSize a d j)))
          packetSize d (Some (2 + j)%nat) true (wrap32 (Z.of_nat j)) dscp).

(** The configuration the application was set up with is in force: the
    fields are as given, the socket (if there is one) carries the ToS byte
    of the DSCP value, and every packet sent has the configured size. *)
Definition configured (packetSize interval dscp : Z) (app : VoipApplication) : Prop :=
  m_packetSize app = packetSize ∧ m_interval app = interval ∧ m_dscp app = dscp
  ∧ ∀ sock, m_socket app = Some sock →
            ipTos sock = tos_of_dscp dscp ∧ Forall (λ p, p.1 = packetSize) (sent sock).

End Exercise05Lifecycle.

(** ** exercise03: the table a failover leaves *)

Module Exercise03Failover.
Import UInt32 Ipv4 Routing Scheduler Exercise03.

#[global] Instance same_network_dec destNetwork mask r :
  Decision (same_network destNetwork mask r).
Proof. unfold same_network. apply _. Defined.

(** The entry [ActivateBackupRoute] adds: always with metric 50. *)
Definition backup_route (destNetwork mask nextHop interface : Z) : Ipv4RoutingTableEntry :=
  mkRoute destNetwork mask nextHop interface 50.

(** The entries of a table for a destination network, and the others. *)
Definition routes_to (destNetwork mask : Z) (t : table) : table :=
  filter (same_network destNetwork mask) t.

Definition routes_elsewhere (destNetwork mask : Z) (t : table) : table :=
  filter (λ r, ¬ same_network destNetwork mask r) t.

(** The invariant of the spec on a routing table: no two of its entries
    conflict. *)
Definition consistent (t : table) : Prop :=
  ∀ i j ei ej, i ≠ j → t !! i = Some ei → t !! j = Some ej → ¬ conflicts ei ej.

End Exercise03Failover.

(** ** exercise02: the interface flags through the run *)

Module Exercise02Interfaces.
Import Scheduler Exercise02.

(** The flag of interface [i] of node [node]; [None]: no such interface. *)
Definition is_up (w : world) (node i : nat) : option bool :=
  w !! node ≫= λ ipv4, ipv4 !! i.

(** The run of [main] up to [stop_time]. *)
Definition main_run (fuel : nat) (stop_time : Z) : Sim callback * world :=
  run_until body fuel stop_time (setup main_calls, main_world).

End Exercise02Interfaces.

(** ** exercise05: performance summary and quality assessment *)

Module Exercise05Summary.
Import UInt32 FlowReport.

(** A double that is infinite or not a number, by its IEEE 754 value. *)
Definition nan_or_infinity (x : float) : Prop :=
  Prim2SF x = S754_nan ∨ ∃ s, Prim2SF x = S754_infinity s.

Definition is_zero (x : float) : Prop := ∃ s, Prim2SF x = S754_zero s.

Definition is_finite_nonzero (x : float) : Prop := ∃ s m e, Prim2SF x = S754_finite s m e.

(** The sums main accumulates over the flows of one traffic class: packet
    counts in 32 bits, delay and jitter sums in seconds. *)
Record Totals := mkTotals {
  TxPackets : Z;
  RxPackets : Z;
  TotalDelay : float;
  TotalJitter : float
}.

(** Average delay and jitter in milliseconds, loss rate in percent. *)
Definition AvgDelay (t : Totals) : float :=
  if 0 <? RxPackets t then (TotalDelay t / to_double (RxPackets t) * 1000)%float else 0%float.

Definition AvgJitter (t : Totals) : float :=
  if 1 <? RxPackets t
  then (TotalJitter t / to_double (wrap32 (RxPackets t - 1)) * 1000)%float
  else 0%float.

Definition LossRate (t : Totals) : float :=
  if 0 <? TxPackets t
  then (to_double (wrap32 (TxPackets t - RxPackets t)) * 100 / to_double (TxPackets t))%float
  else 0%float.

(** The words of the quality assessment. *)
Inductive Grade := EXCELLENT | GOOD | ACCEPTABLE | POOR.

Definition delay_grade (voipAvgDelay : float) : Grade :=
  if (voipAvgDelay <? 150)%float then
    if (voipAvgDelay <? 20)%float then EXCELLENT
    else if (voipAvgDelay <? 50)%float then GOOD
    else ACCEPTABLE
  else POOR.

Definition jitter_grade (voipAvgJitter : float) : Grade :=
  if (voipAvgJitter <? 30)%float then ACCEPTABLE else POOR.

Definition loss_grade (voipLossRate : float) : Grade :=
  if (voipLossRate <? 1)%float then EXCELLENT
  else if (voipLossRate <? 3)%float then ACCEPTABLE
  else POOR.

(** The overall line: [true] for "VoIP QUALITY IS ACCEPTABLE", [false] for
    "VoIP QUALITY IS DEGRADED". *)
Definition overall (voipAvgDelay voipAvgJitter voipLossRate : float) : bool :=
  (voipAvgDelay <? 150)%float && (voipAvgJitter <? 30)%float && (voipLossRate <? 3)%float.

Definition delayImprovement (ftpAvgDelay voipAvgDelay : float) : float :=
  ((ftpAvgDelay - voipAvgDelay) / ftpAvgDelay * 100)%float.

Definition lossImprovement (ftpLossRate voipLossRate : float) : float :=
  ((ftpLossRate - voipLossRate) / ftpLossRate * 100)%float.

(** The QoS effectiveness block: [None] when it is skipped, else delay and
    loss improvement in percent. *)
Definition qos_effectiveness (enableQoS : bool)
           (voipAvgDelay ftpAvgDelay voipLossRate ftpLossRate : float)
  : option (float * float) :=
  if enableQoS && (0 <? voipAvgDelay)%float && (0 <? ftpAvgDelay)%float
  then Some (delayImprovement ftpAvgDelay voipAvgDelay,
             lossImprovement ftpLossRate voipLossRate)
  else None.

End Exercise05Summary.

(** ** exercise06: the attack traffic and its estimate *)

Module Exercise06Attack.
Import UInt32 Ipv4 Exercise06.

(** What main configures for the flood of each attacker: rate in bit/s
    ("100kbps"), packet size in bytes, start and stop time in seconds. *)
Definition attack_rate : Z := 100000.
Definition attack_packet_size : Z := 1024.
Definition attack_start : Z := 5.
Definition attack_stop : Z := 15.

(** [g_ddosPacketsSent] after the set-up: 0 unless the attack is enabled,
    else [numAttackers * 122] in 32 bits. *)
Definition ddos_estimate (enableDDoSAttack : bool) (requested : Z) : Z :=
  if enableDDoSAttack then wrap32 (limit_attackers requested * 122) else 0.

(** The indices the loops over the attackers run through. *)
Definition attacker_indices (requested : Z) : list nat :=
  seq 0 (Z.to_nat (limit_attackers requested)).

End Exercise06Attack.

(** ** exercise03: packet delivery ratio and the availability check *)

Module Exercise03Sla.
Import UInt32 FlowReport.

(** The most packets the echo client sends ([MaxPackets]), hence the most
    [TxTrace] can count. *)
Definition MaxPackets : Z := 1000.

(** [packetDeliveryRatio], in percent. *)
Definition packetDeliveryRatio (totalPacketsSent totalPacketsReceived : Z) : float :=
  if 0 <? totalPacketsSent
  then (100 * to_double totalPacketsReceived / to_double totalPacketsSent)%float
  else 0%float.

(** [packetDeliveryRatio >= 99.95]; the literal is the double nearest to
    99.95. *)
Definition slaAvailability (packetDeliveryRatio : float) : bool :=
  (0x1.8fccccccccccdp+6 <=? packetDeliveryRatio)%float.

(** Decision procedures: the check fails for each of the [k] counts of
    received packets from [received] on; and for each of the [n] counts of
    sent packets from [sent] on it passes when all are received and fails
    for every smaller count. *)
Fixpoint fails_below (sent : Z) (k : nat) (received : Z) : bool :=
  match k with
  | O => true
  | S k' =>
      negb (slaAvailability (packetDeliveryRatio sent received))
      && fails_below sent k' (received + 1)
  end.

Fixpoint all_or_nothing (n : nat) (sent : Z) : bool :=
  match n with
  | O => true
  | S n' =>
      slaAvailability (packetDeliveryRatio sent sent)
      && fails_below sent (Z.to_nat sent) 0
      && all_or_nothing n' (sent + 1)
  end.

End Exercise03Sla.
(** * Properties *)

(** ** Routing lookup *)

Module RoutingFacts.
Import Ipv4 Routing.

Section HeadFilter.
Context {A : Type} (P : A → Prop) `{!∀ x, Decision (P x)}.

Lemma head_filter_Some (l : list A) (e : A) :
  head (filter P l) = Some e ↔
  ∃ i, l !! i = Some e ∧ P e ∧ ∀ j e', l !! j = Some e' → P e' → (i ≤ j)%nat.
Proof.
  induction l as [|x l IH]; simpl.
  - split; [discriminate|]. intros (i & Hi & _). by destruct i.
  - rewrite filter_cons. destruct (decide (P x)) as [Hx|Hx]; simpl.
    + split.
      * intros [= ->]. exists 0%nat. repeat split; auto. intros; lia.
      * intros (i & Hi & He & Hmin).
        specialize (Hmin 0%nat x eq_refl Hx).
        assert (i = 0%nat) as -> by lia. simpl in Hi. congruence.
    + rewrite IH. split.
      * intros (i & Hi & He & Hmin). exists (S i). repeat split; auto.
        intros [|j] e' Hj He'; simpl in Hj.
        -- congruence.
        -- specialize (Hmin j e' Hj He'). lia.
      * intros (i & Hi & He & Hmin). destruct i as [|i]; simpl in Hi.
        -- congruence.
        -- exists i. repeat split; auto.
           intros j e' Hj He'. specialize (Hmin (S j) e' Hj He'). lia.
Qed.
End HeadFilter.

Lemma longest_mask_ub (l : table) e : e ∈ l → (PrefixLen e ≤ longest_mask l)%nat.
Proof.
  unfold longest_mask. induction 1; csimpl; lia.
Qed.

Lemma longest_mask_attained (l : table) :
  l ≠ [] → ∃ e, e ∈ l ∧ PrefixLen e = longest_mask l.
Proof.
  unfold longest_mask. induction l as [|x l IH]; [done|]. intros _.
  destruct l as [|y l].
  - exists x. split; [left|]. csimpl. lia.
  - destruct IH as (e & He & Hlen); [done|].
    csimpl in *.
    destruct (Nat.max_spec (PrefixLen x) (Nat.max (PrefixLen y) (foldr Nat.max 0%nat (PrefixLen <$> l))))
      as [[_ Hm]|[_ Hm]].
    + exists e. split; [by right|]. lia.
    + exists x. split; [left|]. lia.
Qed.

Lemma foldr_min_le (d : Z) (l : list Z) : foldr Z.min d l ≤ d.
Proof. induction l; simpl; lia. Qed.

Lemma foldr_min_lb (d : Z) (l : list Z) x : x ∈ l → foldr Z.min d l ≤ x.
Proof. induction 1; csimpl; lia. Qed.

Lemma foldr_min_attained (d : Z) (l : list Z) :
  foldr Z.min d l = d ∨ foldr Z.min d l ∈ l.
Proof.
  induction l as [|x l IH]; simpl; [by left|].
  destruct (Z.min_spec x (foldr Z.min d l)) as [[_ ->]|[_ ->]].
  - right. left.
  - destruct IH; [by left|right; by right].
Qed.

Lemma lowest_metric_lb (l : table) e : e ∈ l → lowest_metric l ≤ GetMetric e.
Proof.
  destruct l as [|x l]; [by intros ?%elem_of_nil|].
  intros [->|He]%elem_of_cons; simpl.
  - apply foldr_min_le.
  - apply foldr_min_lb, list_elem_of_fmap. eauto.
Qed.

Lemma lowest_metric_attained (l : table) :
  l ≠ [] → ∃ e, e ∈ l ∧ GetMetric e = lowest_metric l.
Proof.
  destruct l as [|x l]; [done|]. intros _. simpl.
  destruct (foldr_min_attained (GetMetric x) (GetMetric <$> l)) as [->|H].
  - exists x. split; [left|done].
  - apply list_elem_of_fmap in H as (e & He & Hin).
    exists e. split; [by right|done].
Qed.

Lemma LookupStatic_filter (t : table) (a : Z) :
  LookupStatic t a =
  head (filter (λ e, (GetMetric e =
                        lowest_metric (filter (λ e, PrefixLen e = longest_mask (filter (Contains a) t))
                                              (filter (Contains a) t))
                      ∧ PrefixLen e = longest_mask (filter (Contains a) t))
                     ∧ Contains a e) t).
Proof.
  unfold LookupStatic. cbv zeta.
  generalize (longest_mask (filter (Contains a) t)) as n.
  intros n. generalize (lowest_metric (filter (λ e, PrefixLen e = n) (filter (Contains a) t))) as m.
  intros m. by rewrite !list_filter_filter.
Qed.

Lemma LookupStatic_Some (t : table) (a : Z) (e : Ipv4RoutingTableEntry) :
  LookupStatic t a = Some e ↔
  ∃ i, t !! i = Some e ∧ Contains a e ∧
       ∀ j e', t !! j = Some e' → Contains a e' → preferred e i e' j.
Proof.
  rewrite LookupStatic_filter, head_filter_Some.
  set (M := filter (Contains a) t).
  set (L := filter (λ e, PrefixLen e = longest_mask M) M).
  split.
  - intros (i & Hi & ((Hmet & Hlen) & Hc) & Hmin).
    exists i. repeat split; auto.
    intros j e' Hj Hc'.
    assert (e' ∈ M) as HM by (apply list_elem_of_filter; eauto using list_elem_of_lookup_2).
    pose proof (longest_mask_ub _ _ HM) as Hub.
    destruct (decide (PrefixLen e' = longest_mask M)) as [Heq|Hne];
      [|left; lia].
    right. split; [congruence|].
    assert (e' ∈ L) as HL by (apply list_elem_of_filter; eauto).
    pose proof (lowest_metric_lb _ _ HL) as Hlb.
    destruct (decide (GetMetric e' = lowest_metric L)) as [Hm|Hm];
      [|left; lia].
    right. split; [congruence|]. apply (Hmin j e'); auto.
  - intros (i & Hi & Hc & Hpref).
    assert (e ∈ M) as HM by (apply list_elem_of_filter; eauto using list_elem_of_lookup_2).
    assert (PrefixLen e = longest_mask M) as Hlen.
    { pose proof (longest_mask_ub _ _ HM) as Hub.
      destruct (longest_mask_attained M) as (e' & He' & Hat).
      { intros HM0. rewrite HM0 in HM. by apply elem_of_nil in HM. }
      apply list_elem_of_filter in He' as [Hc' [j Hj]%list_elem_of_lookup_1].
      destruct (Hpref j e' Hj Hc') as [?|[? _]]; lia. }
    assert (e ∈ L) as HL by (apply list_elem_of_filter; eauto).
    assert (GetMetric e = lowest_metric L) as Hmet.
    { pose proof (lowest_metric_lb _ _ HL) as Hlb.
      destruct (lowest_metric_attained L) as (e' & He' & Hat).
      { intros HL0. rewrite HL0 in HL. by apply elem_of_nil in HL. }
      apply list_elem_of_filter in He' as [Hlen' He'].
      apply list_elem_of_filter in He' as [Hc' [j Hj]%list_elem_of_lookup_1].
      destruct (Hpref j e' Hj Hc') as [?|[_ [?|[? _]]]]; lia. }
    exists i. repeat split; auto.
    intros j e' Hj ((Hm' & Hl') & Hc').
    destruct (Hpref j e' Hj Hc') as [?|[_ [?|[_ ?]]]]; lia.
Qed.

Lemma LookupStatic_None (t : table) (a : Z) :
  LookupStatic t a = None ↔ ∀ e, e ∈ t → ¬ Contains a e.
Proof.
  split.
  - intros Hnone e [i Hi]%list_elem_of_lookup_1 Hc.
    set (M := filter (Contains a) t).
    assert (e ∈ M) as HM by (apply list_elem_of_filter; eauto using list_elem_of_lookup_2).
    destruct (longest_mask_attained M) as (e1 & He1 & Hat1).
    { intros HM0. rewrite HM0 in HM. by apply elem_of_nil in HM. }
    set (L := filter (λ e, PrefixLen e = longest_mask M) M).
    assert (e1 ∈ L) as HL by (apply list_elem_of_filter; eauto).
    destruct (lowest_metric_attained L) as (e2 & He2 & Hat2).
    { intros HL0. rewrite HL0 in HL. by apply elem_of_nil in HL. }
    assert (e2 ∈ filter (λ e, GetMetric e = lowest_metric L) L) as HC
      by (apply list_elem_of_filter; eauto).
    unfold LookupStatic in Hnone. cbv zeta in Hnone. fold M L in Hnone.
    destruct (filter _ L) as [|x l'] eqn:E; [by apply elem_of_nil in HC|done].
  - intros Hno. unfold LookupStatic. cbv zeta.
    assert (filter (Contains a) t = []) as ->; [|done].
    destruct (filter (Contains a) t) as [|x l] eqn:E; [done|].
    assert (x ∈ filter (Contains a) t) as [Hx Hin]%list_elem_of_filter
      by (rewrite E; left).
    by destruct (Hno x Hin).
Qed.

Lemma two_routes_lowest_metric (dest mask g1 i1 g2 i2 a : Z) :
  IsMatch mask a dest = true →
  lookup [mkRoute dest mask g1 i1 10; mkRoute dest mask g2 i2 50] a = Some (g1, i1)
  ∧ lookup [mkRoute dest mask g2 i2 50; mkRoute dest mask g1 i1 10] a = Some (g1, i1).
Proof.
  intros Hm. unfold lookup.
  assert (∀ k (t : table),
            t !! k = Some (mkRoute dest mask g1 i1 10) →
            (∀ j e', t !! j = Some e' →
                     e' = mkRoute dest mask g1 i1 10 ∧ (k ≤ j)%nat
                     ∨ e' = mkRoute dest mask g2 i2 50) →
            LookupStatic t a = Some (mkRoute dest mask g1 i1 10)) as Hpick.
  { intros k t Hk Hall. apply LookupStatic_Some. exists k.
    split; [exact Hk|]. split; [exact Hm|].
    intros j e' Hj _. unfold preferred, PrefixLen.
    destruct (Hall j e' Hj) as [[-> Hle]| ->]; cbn [GetMetric GetDestNetworkMask];
      right; (split; [reflexivity|]); lia. }
  split.
  - rewrite (Hpick 0%nat); [reflexivity|reflexivity|].
    intros [|[|j]] e' [=]; subst; [left; split; [reflexivity|lia]|by right].
  - rewrite (Hpick 1%nat); [reflexivity|reflexivity|].
    intros [|[|j]] e' [=]; subst; [by right|left; split; [reflexivity|lia]].
Qed.

(** C1: lookup returns an entry whose network/mask contains the address
    and that is preferred to every other such entry of the table: it has
    the longest prefix; among equal prefix lengths the lowest metric;
    among equal metrics it is the earliest inserted.  With no containing
    entry the lookup is Unreachable.  A table that holds two routes to the
    same destination network, with metrics 10 and 50 in either order of
    insertion, sends an address of that network to the metric-10 next hop;
    so do the DC-A table of exercise03 (routes to 10.1.4.0/24 with metrics
    10, 50 and 100) and the HQ table of exercise02 (metrics 0 and 10) with
    their lowest metric. *)
Theorem lookup_longest_prefix_lowest_metric_earliest :
  (∀ (t : table) (a : Z) (e : Ipv4RoutingTableEntry),
      LookupStatic t a = Some e ↔
      ∃ i, t !! i = Some e ∧ Contains a e ∧
           ∀ j e', t !! j = Some e' → Contains a e' → preferred e i e' j)
  ∧ (∀ (t : table) (a : Z),
      LookupStatic t a = None ↔ ∀ e, e ∈ t → ¬ Contains a e)
  ∧ (∀ dest mask g1 i1 g2 i2 a : Z,
      IsMatch mask a dest = true →
      lookup [mkRoute dest mask g1 i1 10; mkRoute dest mask g2 i2 50] a = Some (g1, i1)
      ∧ lookup [mkRoute dest mask g2 i2 50; mkRoute dest mask g1 i1 10] a = Some (g1, i1))
  ∧ (∀ h : Z, 0 ≤ h < 256 →
      lookup dca_manual_failover (dotted 10 1 4 h) = Some (dotted 10 1 4 2, 2)
      ∧ lookup hq_table (dotted 10 1 3 h) = Some (dotted 10 1 1 2, 1)).
Proof.
  split; [exact LookupStatic_Some|]. split; [exact LookupStatic_None|].
  split; [exact two_routes_lowest_metric|].
  intros h Hh.
  assert (∃ n : nat, (n < 256)%nat ∧ h = Z.of_nat n) as (n & Hn & ->)
    by (exists (Z.to_nat h); lia).
  clear Hh.
  do 256 (destruct n as [|n]; [by vm_compute|]). lia.
Qed.

End RoutingFacts.

(** ** Scheduler: queue discipline *)

Module SchedulerFacts.
Import Scheduler.

Section Order.
Context {A : Type}.
Implicit Types e : Event A.
Implicit Types q : list (Event A).

Lemma event_ltb_lt e1 e2 : event_ltb e1 e2 = true ↔ event_lt e1 e2.
Proof.
  unfold event_ltb, event_lt.
  rewrite orb_true_iff, andb_true_iff, Z.ltb_lt, Z.eqb_eq, Nat.ltb_lt. tauto.
Qed.

Lemma event_lt_trans e1 e2 e3 : event_lt e1 e2 → event_lt e2 e3 → event_lt e1 e3.
Proof. unfold event_lt. lia. Qed.

Lemma event_lt_le e1 e2 : event_lt e1 e2 → event_le e1 e2.
Proof. unfold event_lt, event_le. lia. Qed.

Lemma event_lt_time e1 e2 : event_lt e1 e2 → scheduled_time e1 ≤ scheduled_time e2.
Proof. unfold event_lt. lia. Qed.

Lemma event_le_antisym e1 e2 :
  event_le e1 e2 → event_le e2 e1 →
  scheduled_time e1 = scheduled_time e2 ∧ insertion_sequence e1 = insertion_sequence e2.
Proof. unfold event_le. lia. Qed.

Lemma event_lt_total e1 e2 :
  insertion_sequence e1 ≠ insertion_sequence e2 → event_lt e1 e2 ∨ event_lt e2 e1.
Proof. unfold event_lt. lia. Qed.

Lemma enqueue_elem_of e q x : x ∈ enqueue e q ↔ x = e ∨ x ∈ q.
Proof.
  induction q as [|e' q IH]; simpl.
  - rewrite list_elem_of_singleton, elem_of_nil. tauto.
  - destruct (event_ltb e e'); rewrite !elem_of_cons; [tauto|]. rewrite IH. tauto.
Qed.

Lemma Forall_enqueue (P : Event A → Prop) e q :
  Forall P (enqueue e q) ↔ P e ∧ Forall P q.
Proof.
  rewrite !Forall_forall. split.
  - intros H. split; [|intros x Hx]; apply H, enqueue_elem_of; auto.
  - intros [He Hq] x [->|Hx]%enqueue_elem_of; auto.
Qed.

Lemma enqueue_sorted e q :
  StronglySorted event_lt q →
  Forall (λ e', insertion_sequence e' ≠ insertion_sequence e) q →
  StronglySorted event_lt (enqueue e q).
Proof.
  induction 1 as [|e' q Hq IH Hall]; intros Hfresh; simpl.
  - repeat constructor.
  - apply Forall_cons in Hfresh as [Hne Hfresh].
    destruct (event_ltb e e') eqn:E.
    + apply event_ltb_lt in E. constructor; [by constructor|].
      constructor; [done|].
      eapply Forall_impl; [exact Hall|]. intros x. by apply event_lt_trans.
    + constructor; [auto|]. apply Forall_enqueue. split; [|done].
      destruct (event_lt_total e' e Hne) as [?|Hlt]; [done|].
      apply event_ltb_lt in Hlt. congruence.
Qed.

Lemma enqueue_perm e q : enqueue e q ≡ₚ e :: q.
Proof.
  induction q as [|e' q IH]; simpl; [done|].
  destruct (event_ltb e e'); [done|]. rewrite IH. apply Permutation_swap.
Qed.

Lemma mark_inert_time h e : scheduled_time (mark_inert h e) = scheduled_time e.
Proof. unfold mark_inert. by destruct (_ =? _)%nat. Qed.

Lemma mark_inert_sequence h e :
  insertion_sequence (mark_inert h e) = insertion_sequence e.
Proof. unfold mark_inert. by destruct (_ =? _)%nat. Qed.

Lemma mark_inert_action h e : action (mark_inert h e) = action e.
Proof. unfold mark_inert. by destruct (_ =? _)%nat. Qed.

Lemma event_lt_mark_inert h h' e1 e2 :
  event_lt e1 e2 → event_lt (mark_inert h e1) (mark_inert h' e2).
Proof.
  unfold event_lt. by rewrite !mark_inert_time, !mark_inert_sequence.
Qed.

Lemma event_lt_mark_inert_r h e1 e2 : event_lt e1 e2 → event_lt e1 (mark_inert h e2).
Proof.
  unfold event_lt. by rewrite !mark_inert_time, !mark_inert_sequence.
Qed.

End Order.

Section Discipline.
Context {A W : Type} (body : A → W → prog A W).
Implicit Types s : Sim A.
Implicit Types e : Event A.

Lemma wf_init : wf (@init A).
Proof. split; simpl; constructor. Qed.

Lemma Forall_sequence_lt (q : list (Event A)) n :
  Forall (λ e, (insertion_sequence e < n)%nat) q → n ∉ insertion_sequence <$> q.
Proof.
  intros Hq (e & -> & He)%list_elem_of_fmap.
  rewrite Forall_forall in Hq. specialize (Hq e He). lia.
Qed.

Lemma schedule_clock d a s : clock (schedule d a s).2 = clock s.
Proof. unfold schedule. by destruct (d <? 0). Qed.

Lemma schedule_executed d a s : executed (schedule d a s).2 = executed s.
Proof. unfold schedule. by destruct (d <? 0). Qed.

Lemma schedule_nonneg d a s :
  0 ≤ d →
  (schedule d a s).2 =
  mkSim (clock s) (S (next_sequence s))
        (enqueue (mkEvent (clock s + d) (next_sequence s) a false) (queue s))
        (executed s).
Proof. intros Hd. unfold schedule. destruct (d <? 0) eqn:E; [lia|done]. Qed.

Lemma schedule_wf d a s : wf s → wf (schedule d a s).2.
Proof.
  intros [Hs Hf Hfr Hu Hts Htp Htb]. unfold schedule.
  destruct (d <? 0) eqn:Hd; [by split|]. apply Z.ltb_ge in Hd.
  split; simpl.
  - apply enqueue_sorted; [done|].
    eapply Forall_impl; [exact Hfr|]. simpl. intros; lia.
  - apply Forall_enqueue. split; [simpl; lia|done].
  - apply Forall_enqueue. split; [simpl; lia|].
    eapply Forall_impl; [exact Hfr|]. simpl. intros; lia.
  - rewrite enqueue_perm. csimpl. apply NoDup_cons. split; [|done].
    by apply Forall_sequence_lt.
  - done.
  - eapply Forall_impl; [exact Htp|]. simpl. intros; lia.
  - rewrite Forall_forall in Htp, Htb |- *. intros x Hx.
    apply Forall_enqueue. split; [|by apply Htb].
    destruct (Htp x Hx). unfold event_lt. simpl. lia.
Qed.

Lemma cancel_wf h s : wf s → wf (cancel h s).
Proof.
  intros [Hs Hf Hfr Hu Hts Htp Htb]. split; simpl; auto.
  - eapply StronglySorted_fmap; [|exact Hs]. intros. by apply event_lt_mark_inert.
  - rewrite Forall_fmap. eapply Forall_impl; [exact Hf|].
    intros x. simpl. by rewrite mark_inert_time.
  - rewrite Forall_fmap. eapply Forall_impl; [exact Hfr|].
    intros x. simpl. by rewrite mark_inert_sequence.
  - rewrite <- list_fmap_compose.
    erewrite list_fmap_ext; [exact Hu|]. intros ? x _. simpl.
    apply mark_inert_sequence.
  - eapply Forall_impl; [exact Htb|]. intros x Hx. simpl in *.
    rewrite Forall_fmap. eapply Forall_impl; [exact Hx|].
    intros y. simpl. apply event_lt_mark_inert_r.
Qed.

Lemma run_wf {X} (p : prog A X) s : wf s → wf (run p s).2.
Proof.
  revert s. induction p as [x|d a k IH|h k IH|h k IH|k IH]; intros s Hs; simpl.
  - done.
  - destruct (schedule d a s) as [r s'] eqn:E. apply IH.
    change s' with ((r, s').2). rewrite <- E. by apply schedule_wf.
  - apply IH. by apply cancel_wf.
  - by apply IH.
  - by apply IH.
Qed.

Lemma run_clock {X} (p : prog A X) s : clock (run p s).2 = clock s.
Proof.
  revert s. induction p as [x|d a k IH|h k IH|h k IH|k IH]; intros s; simpl; auto.
  - destruct (schedule d a s) as [r s'] eqn:E. rewrite IH.
    change s' with ((r, s').2). rewrite <- E. apply schedule_clock.
  - by rewrite IH.
Qed.

Lemma run_executed {X} (p : prog A X) s : executed (run p s).2 = executed s.
Proof.
  revert s. induction p as [x|d a k IH|h k IH|h k IH|k IH]; intros s; simpl; auto.
  - destruct (schedule d a s) as [r s'] eqn:E. rewrite IH.
    change s' with ((r, s').2). rewrite <- E. apply schedule_executed.
  - by rewrite IH.
Qed.

Lemma advance_wf e q s : wf s → queue s = e :: q → wf (advance e q s).
Proof.
  intros [Hs Hf Hfr Hu Hts Htp Htb] Hq. rewrite Hq in *.
  apply StronglySorted_cons in Hs as [Hhd Hs].
  apply Forall_cons in Hf as [Hnow Hf]. apply Forall_cons in Hfr as [_ Hfr].
  split; simpl; auto.
  - eapply Forall_impl; [exact Hhd|]. intros x. apply event_lt_time.
  - csimpl in Hu. by apply NoDup_cons in Hu as [_ ?].
  - eapply Forall_impl; [exact Htp|]. simpl. intros; lia.
  - eapply Forall_impl; [exact Htb|]. simpl. by intros x [_ ?]%Forall_cons.
Qed.

Lemma record_execution_wf e q s :
  wf s → queue s = e :: q → wf (record_execution e (advance e q s)).
Proof.
  intros Hwf Hq. pose proof (advance_wf e q s Hwf Hq) as [Hs Hf Hfr Hu Hts Htp Htb].
  destruct Hwf as [Hs0 Hf0 Hfr0 _ _ _ Htb0]. rewrite Hq in *. simpl in *.
  apply StronglySorted_cons in Hs0 as [Hhd _].
  apply Forall_cons in Hfr0 as [Hlt _].
  split; simpl; auto.
  - apply StronglySorted_app_2; [|done|repeat constructor].
    intros x1 x2 Hx1 ->%list_elem_of_singleton.
    rewrite Forall_forall in Htb0. specialize (Htb0 x1 Hx1).
    by apply Forall_cons in Htb0 as [? _].
  - apply Forall_app. split; [done|]. repeat constructor; [lia|done].
  - apply Forall_app. split; [done|]. by repeat constructor.
Qed.

Lemma step_wf stop s w s' w' :
  wf s → step body stop (s, w) = Some (s', w') → wf s'.
Proof.
  intros Hwf. unfold step. destruct (queue s) as [|e q] eqn:Hq; [done|].
  destruct (stop <? scheduled_time e); [done|].
  destruct (cancelled e).
  - intros [= <- <-]. by apply advance_wf.
  - unfold execute.
    destruct (run _ _) as [w1 s1] eqn:E. intros [= <- <-].
    change s1 with ((w1, s1).2). rewrite <- E.
    apply run_wf. by apply record_execution_wf.
Qed.

Lemma run_until_S fuel stop st :
  run_until body (S fuel) stop st =
  match step body stop st with
  | None => st
  | Some st' => run_until body fuel stop st'
  end.
Proof. reflexivity. Qed.

Lemma run_until_halted fuel stop st :
  step body stop st = None → run_until body fuel stop st = st.
Proof. intros H. destruct fuel; [done|]. by rewrite run_until_S, H. Qed.

Lemma run_until_wf fuel stop s w :
  wf s → wf (run_until body fuel stop (s, w)).1.
Proof.
  revert s w. induction fuel as [|n IH]; intros s w Hwf; [done|].
  rewrite run_until_S.
  destruct (step body stop (s, w)) as [[s' w']|] eqn:E; [|exact Hwf].
  apply IH. by eapply step_wf.
Qed.

Lemma setup_wf (calls : list (Z * A)) : wf (setup calls).
Proof.
  unfold setup. generalize (wf_init). generalize (@init A).
  induction calls as [|c calls IH]; intros s Hs; simpl; [done|].
  apply IH. by apply schedule_wf.
Qed.

Lemma StronglySorted_lookup (R : relation (Event A)) (l : list (Event A)) i j x y :
  StronglySorted R l → (i < j)%nat → l !! i = Some x → l !! j = Some y → R x y.
Proof.
  intros Hl Hij Hi Hj. rewrite <- (take_drop j l) in Hl.
  eapply StronglySorted_app_1_elem_of; [exact Hl| |].
  - apply list_elem_of_lookup. exists i. by rewrite lookup_take_lt.
  - apply list_elem_of_lookup. exists 0%nat. rewrite lookup_drop.
    by rewrite Nat.add_0_r.
Qed.

(** The trace only grows. *)
Lemma step_executed stop s w s' w' :
  step body stop (s, w) = Some (s', w') → executed s `prefix_of` executed s'.
Proof.
  unfold step. destruct (queue s) as [|e q]; [done|].
  destruct (stop <? scheduled_time e); [done|].
  destruct (cancelled e).
  - by intros [= <- <-].
  - unfold execute. destruct (run _ _) as [w1 s1] eqn:E. intros [= <- <-].
    change s1 with ((w1, s1).2). rewrite <- E, run_executed. simpl.
    by apply prefix_app_r.
Qed.

Lemma run_until_executed fuel stop s w :
  executed s `prefix_of` executed (run_until body fuel stop (s, w)).1.
Proof.
  revert s w. induction fuel as [|n IH]; intros s w; [done|].
  rewrite run_until_S.
  destruct (step body stop (s, w)) as [[s' w']|] eqn:E; [|done].
  etrans; [by eapply step_executed|apply IH].
Qed.

Lemma events_at_sequence T k (acts : list A) :
  insertion_sequence <$> events_at T k acts = seq k (length acts).
Proof. revert k. induction acts as [|a acts IH]; intros k; csimpl; [done|]. by rewrite IH. Qed.

Lemma events_at_action T k (acts : list A) : action <$> events_at T k acts = acts.
Proof. revert k. induction acts as [|a acts IH]; intros k; csimpl; [done|]. by rewrite IH. Qed.

Lemma events_at_length T k (acts : list A) : length (events_at T k acts) = length acts.
Proof. revert k. induction acts as [|a acts IH]; intros k; simpl; [done|]. by rewrite IH. Qed.

Lemma events_at_Forall T k (acts : list A) :
  Forall (λ e, scheduled_time e = T ∧ cancelled e = false) (events_at T k acts).
Proof. revert k. induction acts as [|a acts IH]; intros k; simpl; constructor; auto. Qed.

Lemma enqueue_last e (q : list (Event A)) :
  Forall (λ x, event_lt x e) q → enqueue e q = q ++ [e].
Proof.
  induction 1 as [|x q Hx Hq IH]; simpl; [done|].
  destruct (event_ltb e x) eqn:E.
  - apply event_ltb_lt in E. unfold event_lt in *. lia.
  - by rewrite IH.
Qed.

Lemma enqueue_after e (es rest : list (Event A)) :
  Forall (λ x, event_lt x e) es → enqueue e (es ++ rest) = es ++ enqueue e rest.
Proof.
  induction 1 as [|x q Hx Hq IH]; simpl; [done|].
  destruct (event_ltb e x) eqn:E.
  - apply event_ltb_lt in E. unfold event_lt in *. lia.
  - by rewrite IH.
Qed.

Lemma setup_same_time_from T (acts : list A) k q :
  0 ≤ T →
  Forall (λ x, scheduled_time x ≤ T ∧ (insertion_sequence x < k)%nat) q →
  foldl (λ s c, (schedule c.1 c.2 s).2) (mkSim 0 k q []) ((T,.) <$> acts) =
  mkSim 0 (k + length acts) (q ++ events_at T k acts) [].
Proof.
  intros HT. revert k q. induction acts as [|a acts IH]; intros k q Hq; csimpl.
  - by rewrite Nat.add_0_r, app_nil_r.
  - unfold schedule at 2. simpl. destruct (T <? 0) eqn:E; [lia|]. simpl.
    rewrite enqueue_last.
    + rewrite IH.
      * rewrite <- app_assoc. simpl. f_equal. lia.
      * apply Forall_app. split.
        -- eapply Forall_impl; [exact Hq|]. simpl. intros; lia.
        -- repeat constructor; simpl; lia.
    + eapply Forall_impl; [exact Hq|]. unfold event_lt. simpl. intros; lia.
Qed.

Lemma setup_same_time T (acts : list A) :
  0 ≤ T →
  setup ((T,.) <$> acts) = mkSim 0 (length acts) (events_at T 0 acts) [].
Proof.
  intros HT. unfold setup, init. by rewrite setup_same_time_from.
Qed.

(** An action that cancels nothing leaves the events due now at the head
    of the queue. *)
Lemma run_keeps_due {X} (p : prog A X) s es rest :
  cancel_free p → wf s → queue s = es ++ rest →
  Forall (λ x, scheduled_time x ≤ clock s) es →
  ∃ rest', queue (run p s).2 = es ++ rest'.
Proof.
  intros Hp. revert s rest.
  induction Hp as [x|d a k _ IH|h k _ IH|k _ IH]; intros s rest Hwf Hq Hdue; simpl; eauto.
  destruct (schedule d a s) as [r s'] eqn:E.
  assert (wf s') as Hwf'.
  { change s' with ((r, s').2). rewrite <- E. by apply schedule_wf. }
  assert (clock s' = clock s) as Hc.
  { change s' with ((r, s').2). rewrite <- E. by apply schedule_clock. }
  unfold schedule in E. destruct (d <? 0) eqn:Hd.
  - injection E as <- <-. eapply IH; eauto.
  - apply Z.ltb_ge in Hd. injection E as <- <-.
    eapply (IH _ _ (enqueue _ rest)); [done| |by rewrite Hc].
    simpl. rewrite Hq. apply enqueue_after.
    pose proof (wf_fresh _ Hwf) as Hfr. rewrite Hq in Hfr.
    apply Forall_app in Hfr as [Hfr _].
    rewrite Forall_forall in Hfr, Hdue |- *. intros x Hx.
    specialize (Hfr x Hx). specialize (Hdue x Hx).
    unfold event_lt. simpl in *. lia.
Qed.

Lemma due_events_execute T stop es :
  T ≤ stop →
  (∀ a w, cancel_free (body a w)) →
  ∀ fuel s w rest,
    wf s → queue s = es ++ rest →
    Forall (λ e, scheduled_time e = T ∧ cancelled e = false) es →
    (length es ≤ fuel)%nat →
    executed s ++ es `prefix_of` executed (run_until body fuel stop (s, w)).1.
Proof.
  intros Hstop Hcf. induction es as [|e es IH]; intros fuel s w rest Hwf Hq Hes Hfuel.
  - rewrite app_nil_r. apply run_until_executed.
  - destruct fuel as [|n]; [simpl in Hfuel; lia|]. rewrite run_until_S.
    apply Forall_cons in Hes as [[HeT Hec] Hes].
    unfold step. rewrite Hq. simpl.
    destruct (stop <? scheduled_time e) eqn:E; [lia|]. rewrite Hec.
    unfold execute. destruct (run _ _) as [w1 s1] eqn:Er.
    assert (s1 = (run (body (action e) w)
                      (record_execution e (advance e (es ++ rest) s))).2) as Hs1
      by (by rewrite Er).
    destruct (run_keeps_due (body (action e) w)
                (record_execution e (advance e (es ++ rest) s)) es rest)
      as [rest' Hrest]; auto.
    { by apply record_execution_wf. }
    { simpl. eapply Forall_impl; [exact Hes|]. simpl. intros; lia. }
    rewrite <- Hs1 in Hrest.
    assert (executed s1 = executed s ++ [e]) as Hex
      by (by rewrite Hs1, run_executed).
    replace (executed s ++ e :: es) with (executed s1 ++ es)
      by (by rewrite Hex, <- app_assoc).
    eapply IH; eauto.
    + rewrite Hs1. apply run_wf. by apply record_execution_wf.
    + simpl in Hfuel. lia.
Qed.

(** C2: events that carry the same virtual time are executed in the
    order in which they were scheduled: in the trace of any run, of two
    executed events with equal times the one executed first has the
    smaller insertion sequence number; and N events scheduled for time T
    in the order 1..N, with actions that cancel nothing, are executed in
    that order once the run has popped N events. *)
Theorem same_time_events_run_in_insertion_order :
  (∀ (calls : list (Z * A)) (w : W) (stop : Z) (fuel i j : nat) (ei ej : Event A),
      (i < j)%nat →
      executed (run_until body fuel stop (setup calls, w)).1 !! i = Some ei →
      executed (run_until body fuel stop (setup calls, w)).1 !! j = Some ej →
      scheduled_time ei = scheduled_time ej →
      (insertion_sequence ei < insertion_sequence ej)%nat)
  ∧ (∀ (T stop : Z) (acts : list A) (w : W) (fuel : nat),
      0 ≤ T → T ≤ stop →
      (∀ a w', cancel_free (body a w')) →
      (length acts ≤ fuel)%nat →
      let trace :=
        take (length acts)
             (executed (run_until body fuel stop (setup ((T,.) <$> acts), w)).1) in
      insertion_sequence <$> trace = seq 0 (length acts)
      ∧ action <$> trace = acts
      ∧ Forall (λ e, scheduled_time e = T) trace).
Proof.
  split.
  - intros calls w stop fuel i j ei ej Hij Hi Hj Ht.
    pose proof (run_until_wf fuel stop (setup calls) w (setup_wf calls)) as Hwf.
    pose proof (StronglySorted_lookup _ _ _ _ _ _ (wf_trace_sorted _ Hwf) Hij Hi Hj) as Hlt.
    unfold event_lt in Hlt. lia.
  - intros T stop acts w fuel HT Hstop Hcf Hfuel trace.
    assert (trace = events_at T 0 acts) as ->.
    { unfold trace. rewrite setup_same_time by done.
      destruct (due_events_execute T stop (events_at T 0 acts) Hstop Hcf fuel
                  (mkSim 0 (length acts) (events_at T 0 acts) []) w [])
        as [tail Htail].
      - rewrite <- setup_same_time by done. apply setup_wf.
      - simpl. by rewrite app_nil_r.
      - apply events_at_Forall.
      - by rewrite events_at_length.
      - rewrite Htail. simpl.
        rewrite <- (events_at_length T 0 acts). by rewrite take_app_length. }
    rewrite events_at_sequence, events_at_action. repeat split.
    eapply Forall_impl; [apply events_at_Forall|]. by intros e [? _].
Qed.

(** *** The clock *)

Lemma step_clock stop s w s' w' :
  wf s → step body stop (s, w) = Some (s', w') →
  now s ≤ now s' ∧
  (executed s' = executed s ∨
   ∃ e, executed s' = executed s ++ [e] ∧ last (executed s') = Some e ∧
        now s' = scheduled_time e).
Proof.
  intros Hwf. unfold step, now. destruct (queue s) as [|e q] eqn:Hq; [done|].
  destruct (stop <? scheduled_time e); [done|].
  pose proof (wf_future _ Hwf) as Hf. rewrite Hq in Hf.
  apply Forall_cons in Hf as [Hnow _].
  destruct (cancelled e).
  - intros [= <- <-]. simpl. auto.
  - unfold execute. destruct (run _ _) as [w1 s1] eqn:E. intros [= <- <-].
    assert (s1 = (run (body (action e) w) (record_execution e (advance e q s))).2) as ->
      by (by rewrite E).
    rewrite run_clock, run_executed. simpl. split; [done|]. right.
    exists e. by rewrite last_snoc.
Qed.

Lemma run_until_clock fuel stop s w :
  wf s → now s ≤ now (run_until body fuel stop (s, w)).1.
Proof.
  revert s w. induction fuel as [|n IH]; intros s w Hwf; [done|].
  rewrite run_until_S.
  destruct (step body stop (s, w)) as [[s' w']|] eqn:E; [|done].
  destruct (step_clock _ _ _ _ _ Hwf E) as [Hle _].
  etrans; [exact Hle|]. apply IH. by eapply step_wf.
Qed.

(** C3: now() never decreases in a run; whenever the scheduler executes
    an event, now() then equals the scheduled time of that event, the
    last of the trace; and the clock is moved by the scheduler alone: no
    action, whatever it calls, and neither schedule nor cancel changes
    it. *)
Theorem clock_monotone_and_equals_last_executed (s : Sim A) (w : W) (stop : Z) :
  wf s →
  (∀ fuel, now s ≤ now (run_until body fuel stop (s, w)).1)
  ∧ (∀ fuel s' w',
        step body stop (run_until body fuel stop (s, w)) = Some (s', w') →
        now (run_until body fuel stop (s, w)).1 ≤ now s' ∧
        (executed s' = executed (run_until body fuel stop (s, w)).1 ∨
         ∃ e, executed s' = executed (run_until body fuel stop (s, w)).1 ++ [e] ∧
              last (executed s') = Some e ∧ now s' = scheduled_time e))
  ∧ (∀ X (p : prog A X), now (run p s).2 = now s)
  ∧ (∀ d a, now (schedule d a s).2 = now s)
  ∧ (∀ h, now (cancel h s) = now s).
Proof.
  intros Hwf. split; [|split; [|split; [|split]]].
  - intros fuel. by apply run_until_clock.
  - intros fuel s' w' Hstep.
    pose proof (run_until_wf fuel stop s w Hwf) as Hwf'.
    destruct (run_until body fuel stop (s, w)) as [sn wn]. simpl in *.
    by eapply step_clock.
  - intros X p. apply run_clock.
  - intros d a. apply schedule_clock.
  - done.
Qed.

(** *** The scheduler as a relation *)

Lemma earliest_head e (q : list (Event A)) e' :
  StronglySorted event_lt (e :: q) → earliest (e :: q) e' → e' = e.
Proof.
  intros [Hhd _]%StronglySorted_cons [[->|Hin]%elem_of_cons Hmin]; [done|].
  rewrite Forall_forall in Hhd. specialize (Hhd e' Hin).
  specialize (Hmin e (list_elem_of_here _ _)).
  unfold event_lt, event_le in *. lia.
Qed.

Lemma head_earliest e (q : list (Event A)) :
  StronglySorted event_lt (e :: q) → earliest (e :: q) e.
Proof.
  intros [Hhd _]%StronglySorted_cons. split; [left|].
  intros e' [->|Hin]%elem_of_cons.
  - unfold event_le. lia.
  - rewrite Forall_forall in Hhd. by apply event_lt_le, Hhd.
Qed.

Lemma dequeue_head e (q : list (Event A)) :
  NoDup (insertion_sequence <$> e :: q) → dequeue e (e :: q) = q.
Proof.
  csimpl. intros [Hnotin _]%NoDup_cons. unfold dequeue.
  rewrite filter_cons. destruct (decide _) as [Hne|_]; [done|].
  induction q as [|x q IH]; [done|]. csimpl in Hnotin.
  apply not_elem_of_cons in Hnotin as [Hx Hq].
  rewrite filter_cons. destruct (decide _) as [_|Heq]; [|destruct Heq; congruence].
  by rewrite IH.
Qed.

Lemma sched_step_step stop s w st' :
  wf s → sched_step body stop (s, w) st' → step body stop (s, w) = Some st'.
Proof.
  intros Hwf Hstep. inversion Hstep as [s0 w0 e He Hstop Hc|s0 w0 e He Hstop Hc]; subst;
    unfold step; destruct (queue s) as [|e0 q] eqn:Hq;
    try (destruct He as [He _]; by apply elem_of_nil in He).
  all: pose proof (wf_sorted _ Hwf) as Hs; pose proof (wf_unique _ Hwf) as Hu;
    rewrite Hq in Hs, Hu;
    apply earliest_head in He as ->; [|done];
    rewrite dequeue_head by done;
    destruct (stop <? scheduled_time e0) eqn:E; [lia|];
    by rewrite Hc.
Qed.

Lemma step_sched_step stop s w st' :
  wf s → step body stop (s, w) = Some st' → sched_step body stop (s, w) st'.
Proof.
  intros Hwf. unfold step. destruct (queue s) as [|e q] eqn:Hq; [done|].
  pose proof (wf_sorted _ Hwf) as Hs. pose proof (wf_unique _ Hwf) as Hu.
  rewrite Hq in Hs, Hu.
  destruct (stop <? scheduled_time e) eqn:E; [done|]. apply Z.ltb_ge in E.
  rewrite <- (dequeue_head e q Hu), <- Hq.
  destruct (cancelled e) eqn:Hc; intros [= <-].
  - apply step_skip; auto. rewrite Hq. by apply head_earliest.
  - apply step_execute; auto. rewrite Hq. by apply head_earliest.
Qed.

Lemma sched_step_wf stop s w s' w' :
  wf s → sched_step body stop (s, w) (s', w') → wf s'.
Proof. intros Hwf Hstep. eapply step_wf; [done|]. by apply sched_step_step. Qed.

Lemma sched_step_deterministic stop s w st1 st2 :
  wf s → sched_step body stop (s, w) st1 → sched_step body stop (s, w) st2 → st1 = st2.
Proof.
  intros Hwf H1%sched_step_step H2%sched_step_step; auto. congruence.
Qed.

Lemma halted_step stop s w :
  wf s → halted body stop (s, w) ↔ step body stop (s, w) = None.
Proof.
  intros Hwf. split.
  - intros Hh. destruct (step body stop (s, w)) as [st'|] eqn:E; [|done].
    destruct (Hh st'). by apply step_sched_step.
  - intros Hnone st' Hstep%sched_step_step; auto. congruence.
Qed.

Lemma run_until_rtc fuel stop s w :
  wf s → rtc (sched_step body stop) (s, w) (run_until body fuel stop (s, w)).
Proof.
  revert s w. induction fuel as [|n IH]; intros s w Hwf; [done|].
  rewrite run_until_S.
  destruct (step body stop (s, w)) as [[s' w']|] eqn:E; [|done].
  eapply rtc_l; [by apply step_sched_step|]. apply IH. by eapply step_wf.
Qed.

Lemma nsteps_deterministic stop n s w st1 st2 :
  wf s →
  nsteps (sched_step body stop) n (s, w) st1 →
  nsteps (sched_step body stop) n (s, w) st2 → st1 = st2.
Proof.
  revert s w. induction n as [|n IH]; intros s w Hwf H1 H2.
  - inversion H1; inversion H2; congruence.
  - inversion H1 as [|? ? [s1 w1] ? Hs1 Hr1]; subst.
    inversion H2 as [|? ? [s2 w2] ? Hs2 Hr2]; subst.
    pose proof (sched_step_deterministic _ _ _ _ _ Hwf Hs1 Hs2) as [= -> ->].
    apply (IH s2 w2); [by eapply sched_step_wf|done|done].
Qed.

Lemma complete_runs_agree stop s w st1 st2 :
  wf s →
  rtc (sched_step body stop) (s, w) st1 → halted body stop st1 →
  rtc (sched_step body stop) (s, w) st2 → halted body stop st2 →
  st1 = st2.
Proof.
  intros Hwf H1 Hh1 H2 Hh2. remember (s, w) as st eqn:Hst.
  revert s w Hwf Hst H2.
  induction H1 as [x|x [s1 w1] z Hxy Hyz IH]; intros s w Hwf -> H2.
  - inversion H2 as [|? y ? Hstep]; subst; [done|]. by destruct (Hh1 y).
  - inversion H2 as [|? [s2 w2] ? Hstep Hrest]; subst.
    + by destruct (Hh2 (s1, w1)).
    + pose proof (sched_step_deterministic _ _ _ _ _ Hwf Hxy Hstep) as [= -> ->].
      apply (IH Hh1 s2 w2); [by eapply sched_step_wf|done|done].
Qed.

(** C7: two runs of the scheduler that start from the same sequence of
    external schedule calls (same delays, same actions, in the same
    order) execute the same events in the same order: after the same
    number of steps they are in the same state, and two runs carried to
    the end leave the same trace.  Which pending event is popped is
    fixed by the order (time, insertion sequence) alone. *)
Theorem two_runs_same_execution_order :
  (∀ (calls : list (Z * A)) (w : W) (stop : Z) (n : nat) (st1 st2 : Sim A * W),
      nsteps (sched_step body stop) n (setup calls, w) st1 →
      nsteps (sched_step body stop) n (setup calls, w) st2 →
      executed st1.1 = executed st2.1 ∧ st1 = st2)
  ∧ (∀ (calls : list (Z * A)) (w : W) (stop : Z) (st1 st2 : Sim A * W),
      rtc (sched_step body stop) (setup calls, w) st1 → halted body stop st1 →
      rtc (sched_step body stop) (setup calls, w) st2 → halted body stop st2 →
      executed st1.1 = executed st2.1 ∧ st1 = st2).
Proof.
  split.
  - intros calls w stop n st1 st2 H1 H2.
    assert (st1 = st2) as -> by (eapply nsteps_deterministic; eauto using setup_wf).
    done.
  - intros calls w stop st1 st2 H1 Hh1 H2 Hh2.
    assert (st1 = st2) as -> by (eapply complete_runs_agree; eauto using setup_wf).
    done.
Qed.

End Discipline.

End SchedulerFacts.

(** ** exercise03: failover handler and link failure *)

Module Exercise03Facts.
Import Ipv4 Routing Scheduler Exercise03 SchedulerFacts.

Lemma find_old_route_Some destNetwork mask t k n :
  find_old_route destNetwork mask t k = Some n ↔
  ∃ i r, n = (k + i)%nat ∧ t !! i = Some r ∧ same_network destNetwork mask r ∧
         ∀ j r', (j < i)%nat → t !! j = Some r' → ¬ same_network destNetwork mask r'.
Proof.
  unfold same_network. revert k. induction t as [|r t IH]; intros k; simpl.
  - split; [done|]. by intros (i & r & _ & ? & _).
  - destruct ((GetDestNetwork r =? destNetwork) && (GetDestNetworkMask r =? mask)) eqn:E.
    + apply andb_true_iff in E as [E1%Z.eqb_eq E2%Z.eqb_eq]. split.
      * intros [= <-]. exists 0%nat, r. repeat split; auto with lia.
      * intros (i & r' & -> & Hi & _ & Hfirst). destruct i as [|i]; [f_equal; lia|].
        destruct (Hfirst 0%nat r); auto with lia.
    + apply andb_false_iff in E. rewrite IH. split.
      * intros (i & r' & -> & Hi & Hm & Hfirst). exists (S i), r'.
        repeat split; try tauto; [lia|].
        intros [|j] r'' Hj Hr''; simpl in Hr''.
        -- injection Hr'' as <-. rewrite Z.eqb_neq, Z.eqb_neq in E. tauto.
        -- apply (Hfirst j); [lia|done].
      * intros (i & r' & -> & Hi & Hm & Hfirst). destruct i as [|i]; simpl in Hi.
        -- injection Hi as <-. rewrite Z.eqb_neq, Z.eqb_neq in E. tauto.
        -- exists i, r'. repeat split; try tauto; [lia|].
           intros j r'' Hj Hr''. apply (Hfirst (S j)); [lia|done].
Qed.

Lemma find_old_route_None destNetwork mask t k :
  find_old_route destNetwork mask t k = None ↔
  ∀ r, r ∈ t → ¬ same_network destNetwork mask r.
Proof.
  unfold same_network. revert k. induction t as [|r t IH]; intros k; simpl.
  - split; [|done]. by intros _ r ?%elem_of_nil.
  - destruct ((GetDestNetwork r =? destNetwork) && (GetDestNetworkMask r =? mask)) eqn:E.
    + apply andb_true_iff in E as [E1%Z.eqb_eq E2%Z.eqb_eq]. split; [done|].
      intros H. destruct (H r); [left|done].
    + apply andb_false_iff in E. rewrite Z.eqb_neq, Z.eqb_neq in E. rewrite IH. split.
      * intros H r' [->|Hin]%elem_of_cons; [tauto|by apply H].
      * intros H r' Hin. apply H. by right.
Qed.

Lemma remove_old_route_first destNetwork mask (t : table) i r :
  t !! i = Some r → same_network destNetwork mask r →
  (∀ j r', (j < i)%nat → t !! j = Some r' → ¬ same_network destNetwork mask r') →
  remove_old_route destNetwork mask t = delete i t.
Proof.
  intros Hi Hr Hfirst. unfold remove_old_route, RemoveRoute.
  assert (find_old_route destNetwork mask t 0 = Some i) as ->; [|done].
  apply find_old_route_Some. exists i, r. auto.
Qed.

Lemma remove_old_route_none destNetwork mask (t : table) :
  (∀ r, r ∈ t → ¬ same_network destNetwork mask r) →
  remove_old_route destNetwork mask t = t.
Proof.
  intros Hno. unfold remove_old_route.
  by apply find_old_route_None with (k := 0%nat) in Hno as ->.
Qed.

Lemma add_without_route_to destNetwork mask nextHop interface metric (t : table) :
  (∀ r, r ∈ t → ¬ same_network destNetwork mask r) →
  AddNetworkRouteTo t destNetwork mask nextHop interface metric
  = t ++ [mkRoute destNetwork mask nextHop interface metric].
Proof.
  intros Hno. unfold AddNetworkRouteTo. cbv zeta. rewrite decide_False; [done|].
  intros (r & Hin & Hnet & Hmask & _)%Exists_exists. by apply (Hno r Hin).
Qed.

Lemma cast_to_static_routes w node t :
  cast_to_static w node = Some t → routes w !! node = Some t.
Proof.
  unfold cast_to_static. by destruct (routingProtocol w !! node) as [[]|].
Qed.

(** C8 (as the code has it): the removal in ActivateBackupRoute deletes
    exactly the first entry, in insertion order, whose destination network
    and mask are the given ones, and keeps every other entry in place;
    when no entry matches it removes nothing and signals no error: on a
    node whose routing protocol is a static routing (the cast of the
    handler succeeds) the table is left as it was by the removal, and the
    handler goes on to append the backup route (metric 50) and to record
    the failover as done.  On a node whose routing protocol is not a
    static routing (the cast fails) the handler does nothing at all, again
    without an error. *)
Theorem remove_old_route_first_match_or_nothing :
  (∀ destNetwork mask (t : table) i r,
      t !! i = Some r → same_network destNetwork mask r →
      (∀ j r', (j < i)%nat → t !! j = Some r' → ¬ same_network destNetwork mask r') →
      remove_old_route destNetwork mask t = delete i t
      ∧ length (remove_old_route destNetwork mask t) = pred (length t)
      ∧ (∀ j, (j < i)%nat → remove_old_route destNetwork mask t !! j = t !! j)
      ∧ (∀ j, (i ≤ j)%nat → remove_old_route destNetwork mask t !! j = t !! S j))
  ∧ (∀ destNetwork mask (t : table),
      (∀ r, r ∈ t → ¬ same_network destNetwork mask r) →
      remove_old_route destNetwork mask t = t
      ∧ ∀ now node nextHop interface w,
          cast_to_static w node = Some t →
          routes (ActivateBackupRoute now node destNetwork mask nextHop interface w) !! node
            = Some (t ++ [mkRoute destNetwork mask nextHop interface 50])
          ∧ backupRouteActivated
              (ActivateBackupRoute now node destNetwork mask nextHop interface w) = true)
  ∧ (∀ now node destNetwork mask nextHop interface w,
      cast_to_static w node = None →
      ActivateBackupRoute now node destNetwork mask nextHop interface w = w).
Proof.
  split; [|split].
  - intros destNetwork mask t i r Hi Hr Hfirst.
    rewrite (remove_old_route_first _ _ _ _ _ Hi Hr Hfirst).
    pose proof (lookup_lt_Some _ _ _ Hi) as Hlt.
    repeat split.
    + rewrite length_delete by eauto. lia.
    + intros j Hj. by apply list_lookup_delete_lt.
    + intros j Hj. by apply list_lookup_delete_ge.
  - intros destNetwork mask t Hno.
    pose proof (remove_old_route_none _ _ _ Hno) as Hsame. split; [done|].
    intros now node nextHop interface w Hnode. unfold ActivateBackupRoute.
    rewrite Hnode. cbn [routes backupRouteActivated].
    rewrite Hsame, add_without_route_to by done. split; [|done].
    apply list_lookup_insert_eq. apply cast_to_static_routes in Hnode.
    by eapply lookup_lt_Some.
  - intros now node destNetwork mask nextHop interface w Hnode.
    unfold ActivateBackupRoute. by rewrite Hnode.
Qed.

(** C8, where the claim fails: the static set-up of main on a stack whose
    routing protocol is the static routing itself.  DR-B holds no route to
    10.1.4.0/24; ActivateBackupRoute for that network on DR-B finds
    nothing to remove, and yet it completes: the table has changed (the
    backup route is appended) and the failover is recorded as done. *)
Lemma activate_backup_route_without_old_route :
  let w := static_stack_world "static" 10000000 in
  let w' := ActivateBackupRoute (Seconds 7) drB (dotted 10 1 4 0) mask24 (dotted 10 1 3 2) 3 w in
  cast_to_static w drB = Some [mkRoute (dotted 10 1 1 0) mask24 (dotted 10 1 4 1) 1 10]
  ∧ (cast_to_static w drB ≫= λ t, find_old_route (dotted 10 1 4 0) mask24 t 0) = None
  ∧ routes w' !! drB = Some [mkRoute (dotted 10 1 1 0) mask24 (dotted 10 1 4 1) 1 10;
                             mkRoute (dotted 10 1 4 0) mask24 (dotted 10 1 3 2) 3 50]
  ∧ routes w' ≠ routes w
  ∧ backupRouteActivated w' = true.
Proof. vm_compute. repeat split; congruence. Qed.

Lemma SimulateLinkFailure_routes now device w :
  routes (SimulateLinkFailure now device w) = routes w.
Proof. reflexivity. Qed.

Lemma body_routes a w (s : Sim callback) :
  routes (run (body a w) s).1 ≠ routes w →
  ∃ node destNetwork mask nextHop interface,
    a = AActivateBackupRoute node destNetwork mask nextHop interface.
Proof.
  destruct a; simpl; try done. eauto 6.
Qed.

Ltac compare_times :=
  repeat match goal with
  | |- context [Z.ltb ?a ?b] =>
      first [ rewrite (proj2 (Z.ltb_lt a b)) by (unfold Seconds, MilliSeconds in *; lia)
            | rewrite (proj2 (Z.ltb_ge a b)) by (unfold Seconds, MilliSeconds in *; lia) ]
  | |- context [Z.eqb ?a ?b] =>
      first [ rewrite (proj2 (Z.eqb_eq a b)) by (unfold Seconds, MilliSeconds in *; lia)
            | rewrite (proj2 (Z.eqb_neq a b)) by (unfold Seconds, MilliSeconds in *; lia) ]
  end.

Ltac setup_queue :=
  unfold setup, init; cbn [foldl app fst snd];
  rewrite !schedule_nonneg by (unfold Seconds, MilliSeconds; lia);
  cbn [clock next_sequence queue executed enqueue];
  repeat (unfold event_ltb; cbn [scheduled_time insertion_sequence];
          rewrite ?Z.add_0_l; compare_times;
          cbn [orb andb Nat.ltb Nat.leb enqueue]).

Ltac pop_event :=
  rewrite run_until_S; unfold step at 1;
  cbn [queue scheduled_time cancelled]; compare_times;
  unfold execute, advance, record_execution;
  cbn [queue scheduled_time cancelled action clock next_sequence executed
       body run now app].

Ltac stop_here :=
  rewrite run_until_halted
    by (unfold step; cbn [queue scheduled_time]; compare_times; reflexivity).

Lemma main_run_between routingType failureTime stop fuel :
  String.eqb routingType "global" = false →
  0 ≤ failureTime → failureTime ≤ stop < failureTime + Seconds 2 → (2 ≤ fuel)%nat →
  (main_run routingType failureTime fuel stop).2 =
  SimulateLinkFailure failureTime drBPrimaryDev
    (SimulateLinkFailure failureTime dcAPrimaryDev (main_world routingType 10000000)).
Proof.
  intros Hg Hft Hstop Hfuel.
  destruct fuel as [|[|fuel]]; [lia|lia|].
  unfold main_run, main_calls. rewrite Hg.
  generalize (main_world routingType 10000000) as w. intros w.
  destruct (String.eqb routingType "manual-failover") eqn:Hm;
    setup_queue; do 2 pop_event; stop_here; reflexivity.
Qed.

Lemma between_failure_and_failover routingType failureTime stop fuel :
  String.eqb routingType "global" = false →
  0 ≤ failureTime → failureTime ≤ stop < failureTime + Seconds 2 → (2 ≤ fuel)%nat →
  let w' := (main_run routingType failureTime fuel stop).2 in
  failureOccurred w' = true
  ∧ routes w' = main_routes routingType
  ∧ (routes w' !! dcA ≫= λ t, lookup t (dotted 10 1 4 2)) = Some (dotted 10 1 4 2, 2).
Proof.
  intros Hg Hft Hstop Hfuel w'. subst w'.
  rewrite main_run_between by done.
  split; [done|]. split; [done|].
  rewrite !SimulateLinkFailure_routes. unfold main_world, main_routes.
  cbn [routes]. rewrite Hg.
  by destruct (String.eqb routingType "manual-failover").
Qed.

(** C4: the link-failure handler changes no routing table: the routing
    entries of every node are the same after SimulateLinkFailure as
    before, hence so is every lookup; of all the scenario's actions only
    ActivateBackupRoute (remove a route, add a route) can change a table;
    and in the scenario, at any stop time from the failure up to the
    failover event two seconds later, both failure events have run, the
    tables are those of the set-up and DC-A still routes 10.1.4.2 through
    the primary next hop. *)
Theorem link_failure_changes_no_routing_table :
  (∀ now device w, routes (SimulateLinkFailure now device w) = routes w)
  ∧ (∀ now device w node a,
        (routes (SimulateLinkFailure now device w) !! node ≫= λ t, lookup t a)
        = (routes w !! node ≫= λ t, lookup t a))
  ∧ (∀ a w (s : Sim callback),
        routes (run (body a w) s).1 ≠ routes w →
        ∃ node destNetwork mask nextHop interface,
          a = AActivateBackupRoute node destNetwork mask nextHop interface)
  ∧ (∀ routingType failureTime stop fuel,
        String.eqb routingType "global" = false →
        0 ≤ failureTime → failureTime ≤ stop < failureTime + Seconds 2 → (2 ≤ fuel)%nat →
        let w' := (main_run routingType failureTime fuel stop).2 in
        failureOccurred w' = true
        ∧ routes w' = main_routes routingType
        ∧ (routes w' !! dcA ≫= λ t, lookup t (dotted 10 1 4 2)) = Some (dotted 10 1 4 2, 2)).
Proof.
  split; [done|]. split; [done|]. split; [exact body_routes|].
  exact between_failure_and_failover.
Qed.

(** The default scenario: failure at 5 s, stop at 6 s, manual failover. *)
Lemma link_failure_changes_no_routing_table_at_6s :
  let w' := (main_run "manual-failover" (Seconds 5) 10 (Seconds 6)).2 in
  failureOccurred w' = true
  ∧ routes w' = main_routes "manual-failover"
  ∧ (routes w' !! dcA ≫= λ t, lookup t (dotted 10 1 4 2)) = Some (dotted 10 1 4 2, 2).
Proof.
  apply (proj2 (proj2 (proj2 link_failure_changes_no_routing_table))
           "manual-failover"%string (Seconds 5) (Seconds 6) 10%nat);
    [reflexivity | unfold Seconds; lia | unfold Seconds; lia | lia].
Defined.

End Exercise03Facts.

(** ** Flow reports *)

Module FlowReportFacts.
Import UInt32 FlowReport.

(** C5 (as the code has it): the report loops print the packet loss of a
    flow as a percentage, 100 * (tx - rx) / tx, in double precision with
    the difference taken in 32-bit unsigned arithmetic (exercise03 when
    tx > 0, exercise02 for every flow), and the mean delay as
    delaySum / rx when rx > 0 (in seconds in exercise03, multiplied by
    1000 to milliseconds in exercise02); for every flow with tx = 10 and
    rx = 6 the reported loss is exactly 40. *)
Theorem report_loss_is_percentage (simulationTime : float) (f : FlowStats) :
  (0 < txPackets f →
     packetLoss (report03 simulationTime f)
     = Some (100 * to_double (wrap32 (txPackets f - rxPackets f))
             / to_double (txPackets f))%float)
  ∧ packetLoss (report02 f)
    = Some (to_double (wrap32 (txPackets f - rxPackets f)) * 100
            / to_double (txPackets f))%float
  ∧ (0 < txPackets f → 0 < rxPackets f →
     meanDelay (report03 simulationTime f) = Some (delaySum f / to_double (rxPackets f))%float)
  ∧ (0 < rxPackets f →
     meanDelay (report02 f) = Some (delaySum f / to_double (rxPackets f) * 1000)%float)
  ∧ (txPackets f = 10 → rxPackets f = 6 →
     packetLoss (report03 simulationTime f) = Some 40%float ∧ packetLoss (report02 f) = Some 40%float).
Proof.
  unfold report03, report02. split; [|split; [|split; [|split]]].
  - intros Htx. apply Z.ltb_lt in Htx. rewrite Htx. by destruct (0 <? rxPackets f).
  - by destruct (0 <? rxPackets f).
  - intros Htx Hrx. apply Z.ltb_lt in Htx, Hrx. by rewrite Htx, Hrx.
  - intros Hrx. apply Z.ltb_lt in Hrx. by rewrite Hrx.
  - intros -> ->. split; reflexivity.
Qed.

(** C5, where the claim fails: for a flow with tx = 10 and rx = 6 both
    report loops give the loss 40 (percent), which is not 0.4. *)
Lemma report_loss_10_6_is_40 :
  let f := mkFlowStats 10 6 6144 0.03125%float 0.0009765625%float in
  packetLoss (report03 20 f) = Some 40%float
  ∧ packetLoss (report02 f) = Some 40%float
  ∧ PrimFloat.eqb 40 (4 / 10) = false
  ∧ PrimFloat.ltb (4 / 10) 40 = true.
Proof. vm_compute. repeat split. Qed.

(** C6, where the code departs from the claim: for a flow of which one
    packet was received (tx = 1, rx = 1, jitter sum 0) both report loops
    do compute the mean jitter, with divisor rx - 1 = 0, and the value is
    not a number; and exercise02 computes the loss of a flow with tx = 0
    (divisor 0), which exercise03 guards against. *)
Lemma jitter_divides_by_zero_when_one_received :
  let f := mkFlowStats 1 1 1024 0.0078125%float 0%float in
  let g := mkFlowStats 0 0 0 0%float 0%float in
  jitter_divisor f = 0
  ∧ meanJitter (report03 20 f) = Some (jitterSum f / to_double 0)%float
  ∧ meanJitter (report02 f) = Some (jitterSum f / to_double 0 * 1000)%float
  ∧ (not_finite <$> meanJitter (report03 20 f)) = Some true
  ∧ (not_finite <$> meanJitter (report02 f)) = Some true
  ∧ packetLoss (report03 20 g) = None
  ∧ (not_finite <$> packetLoss (report02 g)) = Some true.
Proof. vm_compute. repeat split. Qed.

End FlowReportFacts.

(** ** exercise06: the attacker limit *)

Module Exercise06Facts.
Import UInt32 Exercise06.

(** C9: for every value of the attackers parameter (a 32-bit unsigned
    number) the scenario creates min(value, 5) attacker nodes, and as many
    attack links and attack subnets: a larger request is cut down to 5
    before anything is created. *)
Theorem attackers_limited_to_five (requested : Z) :
  is_uint32 requested →
  Z.of_nat (length (attackers (main_topology requested))) = Z.min requested 5
  ∧ length (attackDevicePairs (main_topology requested))
    = length (attackers (main_topology requested))
  ∧ length (attackNetworks (main_topology requested))
    = length (attackers (main_topology requested))
  ∧ (5 < requested → attackers (main_topology requested) = [3; 4; 5; 6; 7]%nat)
  ∧ (length (attackers (main_topology requested)) ≤ 5)%nat.
Proof.
  intros [Hlo Hhi]. unfold main_topology, limit_attackers, Create. cbn [attackers attackDevicePairs attackNetworks].
  rewrite !length_fmap, !length_seq. repeat split; try lia.
  intros Hgt. by rewrite Z.min_r by lia.
Qed.

Lemma attackers_limited_to_five_at_9 :
  Z.of_nat (length (attackers (main_topology 9))) = Z.min 9 5
  ∧ length (attackDevicePairs (main_topology 9)) = length (attackers (main_topology 9))
  ∧ length (attackNetworks (main_topology 9)) = length (attackers (main_topology 9))
  ∧ (5 < 9 → attackers (main_topology 9) = [3; 4; 5; 6; 7]%nat)
  ∧ (length (attackers (main_topology 9)) ≤ 5)%nat.
Proof. apply (attackers_limited_to_five 9). unfold is_uint32. lia. Defined.

End Exercise06Facts.

(** ** exercise05: the VoIP sender after its stop *)

Module Exercise05Facts.
Import Scheduler Exercise05 SchedulerFacts.
Implicit Types s : Sim callback.
Implicit Types app : VoipApplication.
Implicit Types e : Event callback.

Lemma ScheduleTx_not_running app s :
  m_running app = false → run (ScheduleTx app) s = (app, s).
Proof. intros H. unfold ScheduleTx. by rewrite H. Qed.

Lemma StopApplication_run app s :
  run (StopApplication app) s =
  (stopped app,
   match m_sendEvent app with
   | Some h => if is_pending h s then cancel h s else s
   | None => s
   end).
Proof.
  unfold StopApplication, stopped. destruct (m_sendEvent app) as [h|]; [|done].
  cbn. by destruct (is_pending h s).
Qed.

Lemma mark_inert_cancelled h e :
  cancelled (mark_inert h e) = false →
  cancelled e = false ∧ insertion_sequence e ≠ h.
Proof.
  unfold mark_inert. destruct (insertion_sequence e =? h)%nat eqn:E; [done|].
  apply Nat.eqb_neq in E. auto.
Qed.

Lemma is_pending_false h s e :
  is_pending h s = false → e ∈ queue s → cancelled e = false →
  insertion_sequence e ≠ h.
Proof.
  unfold is_pending. intros Hp He Hc Heq.
  assert (existsb (λ e, (insertion_sequence e =? h)%nat && negb (cancelled e)) (queue s) = true)
    as Hex; [|congruence].
  apply existsb_exists. exists e. split; [by apply list_elem_of_In|].
  rewrite Hc. apply andb_true_iff. split; [by apply Nat.eqb_eq|done].
Qed.

Lemma stop_makes_quiet app s :
  send_tracked s app → no_start_pending s →
  quiet (run (StopApplication app) s).2 (run (StopApplication app) s).1.
Proof.
  unfold send_tracked, no_start_pending, quiet. rewrite !Forall_forall.
  intros Htr Hns. rewrite StopApplication_run. cbn [fst snd]. split; [done|].
  assert (∀ e, e ∈ queue s → cancelled e = false → action e = ASendPacket →
               ∃ h, m_sendEvent app = Some h ∧ insertion_sequence e = h) as Hsend.
  { intros e He Hc Ha. eexists. split; [by apply Htr|done]. }
  destruct (m_sendEvent app) as [h|] eqn:Hev.
  - destruct (is_pending h s) eqn:Hp.
    + cbn [cancel queue]. intros e' (e & -> & He)%list_elem_of_fmap.
      intros [Hc Hne]%mark_inert_cancelled.
      rewrite mark_inert_action.
      destruct (action e) eqn:Ha; [|done|].
      * specialize (Hns e He Ha). congruence.
      * destruct (Hsend e He Hc Ha) as (h' & [= <-] & Heq). congruence.
    + intros e He Hc.
      destruct (action e) eqn:Ha; [|done|].
      * specialize (Hns e He Ha). congruence.
      * destruct (Hsend e He Hc Ha) as (h' & [= <-] & Heq).
        by destruct (is_pending_false h s e Hp He Hc).
  - intros e He Hc.
    destruct (action e) eqn:Ha; [|done|].
    + specialize (Hns e He Ha). congruence.
    + by destruct (Hsend e He Hc Ha) as (h' & [=] & _).
Qed.

Lemma quiet_stop app s :
  quiet s app →
  quiet (run (StopApplication app) s).2 (run (StopApplication app) s).1.
Proof.
  intros [Hr Hq]. rewrite StopApplication_run. cbn [fst snd]. split; [done|].
  destruct (m_sendEvent app) as [h|]; [|done].
  destruct (is_pending h s); [|done].
  cbn [cancel queue]. apply Forall_fmap. eapply Forall_impl; [exact Hq|].
  intros e He. cbn. intros [Hc _]%mark_inert_cancelled.
  rewrite mark_inert_action. auto.
Qed.

Lemma quiet_step stop s app s' app' :
  quiet s app → step body stop (s, app) = Some (s', app') →
  quiet s' app'
  ∧ packets app' = packets app
  ∧ m_packetsSent app' = m_packetsSent app
  ∧ ∃ l, executed s' = executed s ++ l ∧ Forall (λ e, action e ≠ ASendPacket) l.
Proof.
  intros [Hr Hq]. unfold step. destruct (queue s) as [|e q] eqn:Hqueue; [done|].
  destruct (stop <? scheduled_time e); [done|].
  apply Forall_cons in Hq as [He Hq].
  destruct (cancelled e) eqn:Hc.
  - intros [= <- <-]. repeat split; auto.
    exists []. by rewrite app_nil_r.
  - unfold execute. rewrite (He eq_refl). cbn [body].
    set (s1 := record_execution e (advance e q s)).
    destruct (run (StopApplication app) s1) as [app1 s2] eqn:E. intros [= <- <-].
    assert (quiet s1 app) as Hq1 by done.
    pose proof (quiet_stop app s1 Hq1) as Hq2. rewrite E in Hq2.
    pose proof (run_executed (StopApplication app) s1) as Hex. rewrite E in Hex.
    rewrite StopApplication_run in E. injection E as <- _.
    repeat split; try apply Hq2.
    + unfold packets, stopped. cbn. by destruct (m_socket app).
    + exists [e]. split; [done|]. repeat constructor. rewrite (He eq_refl). done.
Qed.

Lemma quiet_run_until fuel stop s app :
  quiet s app →
  packets (run_until body fuel stop (s, app)).2 = packets app
  ∧ m_packetsSent (run_until body fuel stop (s, app)).2 = m_packetsSent app
  ∧ m_running (run_until body fuel stop (s, app)).2 = false
  ∧ ∃ l, executed (run_until body fuel stop (s, app)).1 = executed s ++ l
         ∧ Forall (λ e, action e ≠ ASendPacket) l.
Proof.
  revert s app. induction fuel as [|n IH]; intros s app Hq.
  - cbn. repeat split; [apply Hq|]. exists []. by rewrite app_nil_r.
  - rewrite run_until_S. destruct (step body stop (s, app)) as [[s' app']|] eqn:E.
    + destruct (quiet_step _ _ _ _ _ Hq E) as (Hq' & Hp & Hn & l & Hl & Hall).
      destruct (IH s' app' Hq') as (Hp' & Hn' & Hr' & l' & Hl' & Hall').
      repeat split; try congruence.
      exists (l ++ l'). split; [by rewrite Hl', Hl, app_assoc|by apply Forall_app].
    + cbn. repeat split; [apply Hq|]. exists []. by rewrite app_nil_r.
Qed.

(** The two conditions are kept by every step of the scheduler: once the
    application has been started, they hold for the rest of the run. *)
Lemma mark_inert_stays_cancelled h e :
  cancelled e = true → cancelled (mark_inert h e) = true.
Proof. unfold mark_inert. by destruct (insertion_sequence e =? h)%nat. Qed.

Lemma SendPacket_run app s :
  run (SendPacket app) s =
  run (ScheduleTx (mkVoip (Send (m_packetSize app, now s) <$> m_socket app)
                          (m_packetSize app) (m_interval app) (m_sendEvent app)
                          (m_running app) (UInt32.wrap32 (m_packetsSent app + 1))
                          (m_dscp app))) s.
Proof. reflexivity. Qed.

Lemma ScheduleTx_run app s :
  run (ScheduleTx app) s =
  if m_running app then
    (mkVoip (m_socket app) (m_packetSize app) (m_interval app)
            (event_id (schedule (m_interval app) ASendPacket s).1)
            (m_running app) (m_packetsSent app) (m_dscp app),
     (schedule (m_interval app) ASendPacket s).2)
  else (app, s).
Proof.
  unfold ScheduleTx. destruct (m_running app); [|done].
  cbn. by destruct (schedule _ _ _).
Qed.

Lemma ScheduleTx_tracked app s :
  Forall (λ e, action e = ASendPacket → cancelled e = true) (queue s) →
  no_start_pending s →
  send_tracked (run (ScheduleTx app) s).2 (run (ScheduleTx app) s).1
  ∧ no_start_pending (run (ScheduleTx app) s).2.
Proof.
  intros Hnone Hns. rewrite ScheduleTx_run.
  assert (∀ app', send_tracked s app') as Hvac.
  { intros app'. eapply Forall_impl; [exact Hnone|].
    intros e He Ha Hc. cbn in *. specialize (He Ha). congruence. }
  destruct (m_running app); [|by split].
  unfold schedule. destruct (m_interval app <? 0); cbn [fst snd]; [by split|].
  unfold send_tracked, no_start_pending. cbn [queue m_sendEvent event_id].
  split; apply Forall_enqueue; split; cbn; try done.
  eapply Forall_impl; [exact Hnone|].
  intros e He Ha Hc. cbn in *. specialize (He Ha). congruence.
Qed.

Lemma send_tracked_step stop s app s' app' :
  wf s → send_tracked s app → no_start_pending s →
  step body stop (s, app) = Some (s', app') →
  send_tracked s' app' ∧ no_start_pending s'.
Proof.
  intros Hwf Htr Hns. unfold step. destruct (queue s) as [|e q] eqn:Hqueue; [done|].
  destruct (stop <? scheduled_time e); [done|].
  unfold send_tracked, no_start_pending in Htr, Hns. rewrite Hqueue in Htr, Hns.
  apply Forall_cons in Htr as [Hte Htr]. apply Forall_cons in Hns as [Hne Hns].
  destruct (cancelled e) eqn:Hc.
  - by intros [= <- <-].
  - unfold execute. set (s1 := record_execution e (advance e q s)).
    destruct (run (body (action e) app) s1) as [app1 s2] eqn:E. intros [= <- <-].
    destruct (action e) eqn:Ha; cbn [body] in E.
    + specialize (Hne eq_refl). congruence.
    + rewrite StopApplication_run in E. injection E as <- <-.
      assert (send_tracked s1 (stopped app) ∧ no_start_pending s1) as [Htr1 Hns1]
        by (by split).
      destruct (m_sendEvent app) as [h|] eqn:Hev; [|by split].
      destruct (is_pending h s1); [|by split].
      unfold send_tracked, no_start_pending. cbn [cancel queue s1 record_execution advance].
      split; apply Forall_fmap.
      * eapply Forall_impl; [exact Htr|]. intros x Hx. cbn.
        rewrite mark_inert_action, mark_inert_sequence.
        intros Hax [Hcx _]%mark_inert_cancelled. rewrite Hev. auto.
      * eapply Forall_impl; [exact Hns|]. intros x Hx. cbn.
        rewrite mark_inert_action. intros Hax. by apply mark_inert_stays_cancelled, Hx.
    + rewrite SendPacket_run in E.
      pose proof (ScheduleTx_tracked
                    (mkVoip (Send (m_packetSize app, now s1) <$> m_socket app)
                            (m_packetSize app) (m_interval app) (m_sendEvent app)
                            (m_running app) (UInt32.wrap32 (m_packetsSent app + 1))
                            (m_dscp app)) s1) as Hsched.
      rewrite E in Hsched. apply Hsched; [|done].
      cbn [s1 record_execution advance queue].
      pose proof (wf_unique _ Hwf) as Hu. rewrite Hqueue in Hu. csimpl in Hu.
      apply NoDup_cons in Hu as [Hnotin _].
      apply Forall_forall. intros x Hx Hax.
      destruct (cancelled x) eqn:Hcx; [done|].
      rewrite Forall_forall in Htr. pose proof (Htr x Hx Hax Hcx) as Hsx.
      rewrite (Hte eq_refl eq_refl) in Hsx. injection Hsx as Hsx.
      destruct Hnotin. rewrite Hsx. apply list_elem_of_fmap. eauto.
Qed.

Lemma send_tracked_run_until fuel stop s app :
  wf s → send_tracked s app → no_start_pending s →
  send_tracked (run_until body fuel stop (s, app)).1 (run_until body fuel stop (s, app)).2
  ∧ no_start_pending (run_until body fuel stop (s, app)).1.
Proof.
  revert s app. induction fuel as [|n IH]; intros s app Hwf Htr Hns; [by split|].
  rewrite run_until_S. destruct (step body stop (s, app)) as [[s' app']|] eqn:E; [|by split].
  destruct (send_tracked_step _ _ _ _ _ Hwf Htr Hns E) as [Htr' Hns'].
  apply IH; auto. by eapply step_wf.
Qed.

(** In the scenario of [main] the conditions hold from the start of the
    application on, whatever the stop time of the run. *)
Lemma main_lifecycle fuel stop :
  run_until body fuel stop (setup main_calls, voipApp) = (setup main_calls, voipApp)
  ∨ (send_tracked (run_until body fuel stop (setup main_calls, voipApp)).1
                  (run_until body fuel stop (setup main_calls, voipApp)).2
     ∧ no_start_pending (run_until body fuel stop (setup main_calls, voipApp)).1).
Proof.
  destruct fuel as [|n]; [by left|]. rewrite run_until_S.
  destruct (step body stop (setup main_calls, voipApp)) as [[s1 app1]|] eqn:E; [|by left].
  right.
  assert (wf s1) as Hwf by (eapply step_wf; [apply setup_wf|exact E]).
  assert (send_tracked s1 app1 ∧ no_start_pending s1) as [Htr Hns].
  { revert E. unfold step.
    set (q0 := queue (setup main_calls)). vm_compute in q0. subst q0.
    cbn [scheduled_time cancelled]. destruct (stop <? 1000000000); [done|].
    intros [= <- <-]. vm_compute. split; repeat constructor; congruence. }
  by apply send_tracked_run_until.
Qed.

(** A step of the running application executes a send, or skips a
    cancelled event, or executes the stop, which leaves only stops to
    run. *)
Lemma running_step stop s app s' app' :
  wf s → send_tracked s app → no_start_pending s →
  step body stop (s, app) = Some (s', app') →
  (∃ l, executed s' = executed s ++ l ∧ Forall (λ e, action e = ASendPacket) l)
  ∨ (∃ e, executed s' = executed s ++ [e] ∧ action e = AStopApplication ∧ quiet s' app').
Proof.
  intros Hwf Htr Hns. unfold step. destruct (queue s) as [|e q] eqn:Hqueue; [done|].
  destruct (stop <? scheduled_time e); [done|].
  unfold send_tracked, no_start_pending in Htr, Hns. rewrite Hqueue in Htr, Hns.
  apply Forall_cons in Htr as [Hte Htr]. apply Forall_cons in Hns as [Hne Hns].
  destruct (cancelled e) eqn:Hc.
  - intros [= <- <-]. left. exists []. by rewrite app_nil_r.
  - unfold execute. set (s1 := record_execution e (advance e q s)).
    pose proof (run_executed (body (action e) app) s1) as Hex.
    destruct (run (body (action e) app) s1) as [app1 s2] eqn:E. intros [= <- <-].
    cbn [snd] in Hex.
    destruct (action e) eqn:Ha; cbn [body] in E.
    + specialize (Hne eq_refl). congruence.
    + right. exists e. split; [done|]. split; [done|].
      pose proof (stop_makes_quiet app s1) as Hq. rewrite E in Hq. by apply Hq.
    + left. exists [e]. split; [done|]. by repeat constructor.
Qed.

Lemma no_send_after_stop_app (pre : list (Event callback)) e post :
  Forall (λ x, action x ≠ AStopApplication) pre →
  Forall (λ x, action x ≠ ASendPacket) post →
  no_send_after_stop (pre ++ [e] ++ post).
Proof.
  intros Hpre Hpost i j ei ej Hij Hi Hj Hstop.
  destruct (decide (i < length pre)%nat) as [Hlt|Hge].
  - rewrite lookup_app_l in Hi by done.
    rewrite Forall_forall in Hpre. destruct (Hpre ei); [|done].
    by eapply list_elem_of_lookup_2.
  - rewrite lookup_app_r in Hj by lia.
    destruct (j - length pre)%nat as [|k] eqn:Hk; [lia|]. cbn in Hj.
    rewrite Forall_forall in Hpost. apply (Hpost ej).
    by eapply list_elem_of_lookup_2.
Qed.

Lemma no_send_after_stop_none (trace : list (Event callback)) :
  Forall (λ x, action x ≠ AStopApplication) trace → no_send_after_stop trace.
Proof.
  intros Hall i j ei ej _ Hi _ Hstop.
  rewrite Forall_forall in Hall. destruct (Hall ei); [|done].
  by eapply list_elem_of_lookup_2.
Qed.

Lemma running_trace fuel stop s app :
  wf s → send_tracked s app → no_start_pending s →
  Forall (λ x, action x ≠ AStopApplication) (executed s) →
  no_send_after_stop (executed (run_until body fuel stop (s, app)).1).
Proof.
  revert s app. induction fuel as [|n IH]; intros s app Hwf Htr Hns Hpre;
    [by apply no_send_after_stop_none|].
  rewrite run_until_S.
  destruct (step body stop (s, app)) as [[s' app']|] eqn:E;
    [|by apply no_send_after_stop_none].
  destruct (running_step _ _ _ _ _ Hwf Htr Hns E)
    as [(l & Hl & Hsend)|(e & He & Hstop & Hq)].
  - destruct (send_tracked_step _ _ _ _ _ Hwf Htr Hns E) as [Htr' Hns'].
    apply IH; auto; [by eapply step_wf|].
    rewrite Hl. apply Forall_app. split; [done|].
    eapply Forall_impl; [exact Hsend|]. cbn. intros x ->. done.
  - destruct (quiet_run_until n stop s' app' Hq) as (_ & _ & _ & l & Hl & Hall).
    rewrite Hl, He, <- app_assoc. by apply no_send_after_stop_app.
Qed.

(** In the scenario of [main], whatever the stop time and the number of
    events popped, no send is executed after the stop. *)
Lemma main_no_send_after_stop fuel stop :
  no_send_after_stop (executed (run_until body fuel stop (setup main_calls, voipApp)).1).
Proof.
  destruct fuel as [|n]; [by apply no_send_after_stop_none; vm_compute; constructor|].
  rewrite run_until_S.
  destruct (step body stop (setup main_calls, voipApp)) as [[s1 app1]|] eqn:E;
    [|by apply no_send_after_stop_none; vm_compute; constructor].
  assert (wf s1) as Hwf by (eapply step_wf; [apply setup_wf|exact E]).
  assert (send_tracked s1 app1 ∧ no_start_pending s1
          ∧ Forall (λ x, action x ≠ AStopApplication) (executed s1)) as (Htr & Hns & Hpre).
  { revert E. unfold step.
    set (q0 := queue (setup main_calls)). vm_compute in q0. subst q0.
    cbn [scheduled_time cancelled]. destruct (stop <? 1000000000); [done|].
    intros [= <- <-]. vm_compute. repeat split; repeat constructor; congruence. }
  by apply running_trace.
Qed.

Lemma stopped_sends_nothing (s : Sim callback) (app : VoipApplication) :
  send_tracked s app → no_start_pending s →
  m_running (run (StopApplication app) s).1 = false
  ∧ Forall (λ e, action e = ASendPacket → cancelled e = true)
           (queue (run (StopApplication app) s).2)
  ∧ ∀ fuel stop,
      let st := run_until body fuel stop
                  ((run (StopApplication app) s).2, (run (StopApplication app) s).1) in
      packets st.2 = packets app
      ∧ m_packetsSent st.2 = m_packetsSent app
      ∧ m_running st.2 = false
      ∧ ∃ l, executed st.1 = executed s ++ l ∧ Forall (λ e, action e ≠ ASendPacket) l.
Proof.
  intros Htr Hns. pose proof (stop_makes_quiet app s Htr Hns) as Hq.
  pose proof (run_executed (StopApplication app) s) as Hex.
  destruct (run (StopApplication app) s) as [app1 s1] eqn:E. cbn [fst snd] in *.
  assert (app1 = stopped app) as Happ
    by (rewrite StopApplication_run in E; congruence).
  split; [apply Hq|]. split.
  - destruct Hq as [_ Hq]. eapply Forall_impl; [exact Hq|].
    intros e He Ha. cbn in *. destruct (cancelled e); [done|].
    specialize (He eq_refl). congruence.
  - intros fuel stop.
    destruct (quiet_run_until fuel stop s1 app1 Hq) as (Hp & Hn & Hr & l & Hl & Hall).
    assert (packets app1 = packets app) as Hpk.
    { rewrite Happ. unfold packets, stopped. cbn. by destruct (m_socket app). }
    repeat split; try congruence.
    + rewrite Hn, Happ. done.
    + exists l. by rewrite Hl, Hex.
Qed.

(** C10: after StopApplication the application sends no packet.  In a
    state where every send event still to run is the one m_sendEvent refers
    to and no start of the application is still to run, StopApplication
    leaves the application not running and every send event in the queue
    cancelled, and however far the simulation is run from there no send
    event is executed: the packets handed to the socket and the packet
    counter stay as they were.  ScheduleTx schedules nothing while
    m_running is false: it leaves simulator and application as they are.
    The two conditions are kept by every step of the scheduler, and in the
    scenario of main (start at 1 s, stop at 14 s) no send is executed after
    the stop, whatever the stop time of the run and the number of events
    popped. *)
Theorem stopped_application_sends_nothing :
  (∀ (s : Sim callback) (app : VoipApplication),
      send_tracked s app → no_start_pending s →
      m_running (run (StopApplication app) s).1 = false
      ∧ Forall (λ e, action e = ASendPacket → cancelled e = true)
               (queue (run (StopApplication app) s).2)
      ∧ ∀ fuel stop,
          let st := run_until body fuel stop
                      ((run (StopApplication app) s).2, (run (StopApplication app) s).1) in
          packets st.2 = packets app
          ∧ m_packetsSent st.2 = m_packetsSent app
          ∧ m_running st.2 = false
          ∧ ∃ l, executed st.1 = executed s ++ l
                 ∧ Forall (λ e, action e ≠ ASendPacket) l)
  ∧ (∀ (app : VoipApplication) (s : Sim callback),
      m_running app = false → run (ScheduleTx app) s = (app, s))
  ∧ (∀ stop (s : Sim callback) (app : VoipApplication) s' app',
      wf s → send_tracked s app → no_start_pending s →
      step body stop (s, app) = Some (s', app') →
      send_tracked s' app' ∧ no_start_pending s')
  ∧ (∀ fuel stop,
      no_send_after_stop
        (executed (run_until body fuel stop (setup main_calls, voipApp)).1)).
Proof.
  split; [exact stopped_sends_nothing|].
  split; [exact ScheduleTx_not_running|].
  split; [exact send_tracked_step|exact main_no_send_after_stop].
Qed.

(** The scenario of [main] at the moment its stop event is due: 649
    packets were sent, and none is sent from there on. *)
Lemma voip_stopped_in_main :
  let s := before_stop.1 in
  let app := before_stop.2 in
  send_tracked s app ∧ no_start_pending s
  ∧ m_packetsSent app = 649
  ∧ m_running (run (StopApplication app) s).1 = false
  ∧ Forall (λ e, action e = ASendPacket → cancelled e = true)
           (queue (run (StopApplication app) s).2)
  ∧ ∀ fuel stop,
      let st := run_until body fuel stop
                  ((run (StopApplication app) s).2, (run (StopApplication app) s).1) in
      packets st.2 = packets app ∧ m_packetsSent st.2 = 649.
Proof.
  intros s app.
  assert (send_tracked s app) as Htr.
  { unfold send_tracked, s, app. vm_compute. repeat constructor; congruence. }
  assert (no_start_pending s) as Hns.
  { unfold no_start_pending, s. vm_compute. repeat constructor; congruence. }
  assert (m_packetsSent app = 649) as Hn by (by vm_compute).
  destruct (proj1 stopped_application_sends_nothing s app Htr Hns) as (Hr & Hq & Hrun).
  repeat split; auto.
  - by destruct (Hrun fuel stop) as (? & _).
  - destruct (Hrun fuel stop) as (_ & ? & _). congruence.
Defined.

End Exercise05Facts.

(** ** exercise02: the two interface failures scheduled for t = 6 s *)

Module Exercise02Facts.
Import Scheduler SchedulerFacts Exercise02.

Lemma body_cancel_free a w : cancel_free (body a w).
Proof. destruct a. constructor. Qed.

(** The two DisableInterface events of exercise02, both due at 6 s, run
    in the order of their Schedule calls. *)
Lemma disable_interface_events_in_order :
  0 ≤ Seconds 6 ∧ Seconds 6 ≤ main_stop
  ∧ (∀ a w, cancel_free (body a w))
  ∧ let trace :=
      take 2 (executed (run_until body 2 main_stop (setup main_calls, main_world)).1) in
    insertion_sequence <$> trace = [0; 1]%nat
    ∧ action <$> trace = [ADisableInterface 0 2; ADisableInterface 2 1]
    ∧ Forall (λ e, scheduled_time e = Seconds 6) trace.
Proof.
  split; [by vm_compute|]. split; [by vm_compute|]. split; [exact body_cancel_free|].
  apply (proj2 (same_time_events_run_in_insertion_order body) (Seconds 6) main_stop
           [ADisableInterface 0 2; ADisableInterface 2 1] main_world 2%nat);
    [by vm_compute|by vm_compute|exact body_cancel_free|simpl; lia].
Defined.

(** The clock of exercise02's run, from its set-up on. *)
Lemma disable_interface_clock :
  wf (setup main_calls)
  ∧ (∀ fuel,
        now (setup main_calls)
        ≤ now (run_until body fuel main_stop (setup main_calls, main_world)).1)
  ∧ (∀ fuel s' w',
        step body main_stop (run_until body fuel main_stop (setup main_calls, main_world))
        = Some (s', w') →
        now (run_until body fuel main_stop (setup main_calls, main_world)).1 ≤ now s' ∧
        (executed s' = executed (run_until body fuel main_stop (setup main_calls, main_world)).1 ∨
         ∃ e, executed s'
              = executed (run_until body fuel main_stop (setup main_calls, main_world)).1 ++ [e] ∧
              last (executed s') = Some e ∧ now s' = scheduled_time e))
  ∧ (∀ X (p : prog callback X), now (run p (setup main_calls)).2 = now (setup main_calls))
  ∧ (∀ d a, now (schedule d a (setup main_calls)).2 = now (setup main_calls))
  ∧ (∀ h, now (cancel h (setup main_calls)) = now (setup main_calls)).
Proof.
  split; [apply setup_wf|].
  apply (clock_monotone_and_equals_last_executed body (setup main_calls) main_world main_stop).
  apply setup_wf.
Defined.

(** Two complete runs of exercise02, one given 5 and one given 9 pops,
    agree. *)
Lemma disable_interface_runs_agree :
  let run1 := run_until body 5 main_stop (setup main_calls, main_world) in
  let run2 := run_until body 9 main_stop (setup main_calls, main_world) in
  rtc (sched_step body main_stop) (setup main_calls, main_world) run1
  ∧ halted body main_stop run1
  ∧ rtc (sched_step body main_stop) (setup main_calls, main_world) run2
  ∧ halted body main_stop run2
  ∧ executed run1.1 = executed run2.1 ∧ run1 = run2
  ∧ (action <$> executed run1.1) = [ADisableInterface 0 2; ADisableInterface 2 1]
  ∧ run1.2 = [[true; true; false]; [true; true; true]; [true; false; true]].
Proof.
  intros run1 run2.
  assert (∀ fuel,
            step body main_stop
                 (run_until body fuel main_stop (setup main_calls, main_world)) = None →
            rtc (sched_step body main_stop) (setup main_calls, main_world)
                (run_until body fuel main_stop (setup main_calls, main_world))
            ∧ halted body main_stop
                (run_until body fuel main_stop (setup main_calls, main_world))) as Hcomplete.
  { intros fuel Hnone. split; [apply run_until_rtc, setup_wf|].
    pose proof (run_until_wf body fuel main_stop (setup main_calls) main_world
                  (setup_wf main_calls)) as Hwf.
    destruct (run_until body fuel main_stop (setup main_calls, main_world)) as [s w].
    by apply halted_step. }
  destruct (Hcomplete 5%nat) as [Hrun1 Hhalt1]; [by vm_compute|].
  destruct (Hcomplete 9%nat) as [Hrun2 Hhalt2]; [by vm_compute|].
  fold run1 in Hrun1, Hhalt1. fold run2 in Hrun2, Hhalt2.
  repeat (split; [assumption|]).
  pose proof (proj2 (two_runs_same_execution_order body) main_calls main_world main_stop
                run1 run2 Hrun1 Hhalt1 Hrun2 Hhalt2) as [Htrace Hstate].
  split; [exact Htrace|]. split; [exact Hstate|]. split; by vm_compute.
Defined.

End Exercise02Facts.

(** ** exercise05: the sender is periodic *)

Module Exercise05LifecycleFacts.
Import UInt32 Scheduler SchedulerFacts Exercise05 Exercise05Facts Exercise05Lifecycle.

Section Run.
Context {A W : Type} (body : A → W → prog A W).

Lemma run_until_snoc fuel stop (st : Sim A * W) :
  run_until body (S fuel) stop st =
  match step body stop (run_until body fuel stop st) with
  | Some st' => st'
  | None => run_until body fuel stop st
  end.
Proof.
  revert st. induction fuel as [|n IH]; intros st.
  - cbn. by destruct (step body stop st).
  - rewrite run_until_S. destruct (step body stop st) as [st'|] eqn:E.
    + rewrite IH. by rewrite run_until_S, E.
    + by rewrite run_until_S, E, E.
Qed.

Lemma run_until_more fuel fuel' stop (st : Sim A * W) :
  step body stop (run_until body fuel stop st) = None →
  (fuel ≤ fuel')%nat →
  run_until body fuel' stop st = run_until body fuel stop st.
Proof.
  intros Hnone Hle. induction Hle as [|m Hle IH]; [done|].
  by rewrite run_until_snoc, IH, Hnone.
Qed.

Lemma run_until_add fuel fuel' stop (st : Sim A * W) :
  run_until body (fuel + fuel') stop st
  = run_until body fuel' stop (run_until body fuel stop st).
Proof.
  revert st. induction fuel as [|n IH]; intros st; [done|].
  cbn [Nat.add]. rewrite !run_until_S.
  destruct (step body stop st) as [st'|] eqn:E; [apply IH|].
  by rewrite run_until_halted.
Qed.

End Run.

Lemma closed_step stop s app s' app' :
  quiet s app → (closed <$> m_socket app) = Some true →
  step body stop (s, app) = Some (s', app') →
  (closed <$> m_socket app') = Some true.
Proof.
  intros [Hr Hq] Hc. unfold step. destruct (queue s) as [|e q] eqn:Hqueue; [done|].
  destruct (stop <? scheduled_time e); [done|].
  apply Forall_cons in Hq as [He Hq].
  destruct (cancelled e) eqn:Hcan; [by intros [= <- <-]|].
  unfold execute. rewrite (He eq_refl). cbn [body].
  rewrite StopApplication_run. intros [= <- <-].
  unfold stopped. cbn [m_socket]. by destruct (m_socket app).
Qed.

Lemma closed_run_until fuel stop s app :
  quiet s app → (closed <$> m_socket app) = Some true →
  (closed <$> m_socket (run_until body fuel stop (s, app)).2) = Some true.
Proof.
  revert s app. induction fuel as [|n IH]; intros s app Hq Hc; [done|].
  rewrite run_until_S. destruct (step body stop (s, app)) as [[s' app']|] eqn:E; [|done].
  apply IH; [by eapply quiet_step|by eapply closed_step].
Qed.

Section Periodic.
Variables packetSize d dscp a b : Z.
Hypothesis Ha : 0 ≤ a ≤ b.
Hypothesis Hd : 0 < d.

Lemma enqueue_send_before t n :
  t < b →
  enqueue (mkEvent t n ASendPacket false) [mkEvent b 1 AStopApplication false]
  = [mkEvent t n ASendPacket false; mkEvent b 1 AStopApplication false].
Proof.
  intros Ht. cbn [enqueue]. unfold event_ltb. cbn [scheduled_time insertion_sequence].
  by rewrite (proj2 (Z.ltb_lt t b)) by done.
Qed.

Lemma enqueue_send_after t n :
  b ≤ t → (1 < n)%nat →
  enqueue (mkEvent t n ASendPacket false) [mkEvent b 1 AStopApplication false]
  = [mkEvent b 1 AStopApplication false; mkEvent t n ASendPacket false].
Proof.
  intros Ht Hn. cbn [enqueue]. unfold event_ltb. cbn [scheduled_time insertion_sequence].
  rewrite (proj2 (Z.ltb_ge t b)) by done.
  rewrite (proj2 (Nat.ltb_ge n 1)) by lia.
  by destruct (t =? b).
Qed.

Lemma lifecycle_setup :
  setup (lifecycle_calls a b)
  = mkSim 0 2 [mkEvent a 0 AStartApplication false; mkEvent b 1 AStopApplication false] [].
Proof.
  unfold setup, lifecycle_calls, init. cbn [foldl fst snd].
  rewrite !schedule_nonneg by lia. cbn [clock next_sequence queue executed enqueue].
  unfold event_ltb. cbn [scheduled_time insertion_sequence]. rewrite !Z.add_0_l.
  destruct (b <? a) eqn:E1; [lia|]. cbn [orb].
  by destruct (b =? a).
Qed.

Lemma start_step stop :
  a ≤ stop →
  step body stop (setup (lifecycle_calls a b),
                  Setup packetSize d a b dscp VoipApplication_new)
  = Some (running_state packetSize d dscp a b 0).
Proof.
  intros Hstop. rewrite lifecycle_setup. unfold step. cbn [queue scheduled_time cancelled].
  rewrite (proj2 (Z.ltb_ge stop a)) by done.
  unfold execute, advance, record_execution. cbn [action body].
  unfold StartApplication, Setup, VoipApplication_new.
  cbn [m_socket m_packetSize m_interval m_sendEvent m_dscp].
  rewrite ScheduleTx_run. cbn [m_running m_socket m_packetSize m_interval m_sendEvent
                               m_packetsSent m_dscp].
  rewrite schedule_nonneg by lia. unfold schedule. rewrite (proj2 (Z.ltb_ge d 0)) by lia.
  cbn [fst snd clock next_sequence queue executed event_id app].
  unfold running_state, send_events, packets_until. cbn [seq fmap list_fmap].
  repeat f_equal; cbn; lia.
Qed.

Lemma packets_before_stop_spec (i : nat) :
  (1 ≤ i ≤ packets_before_stop a b d)%nat → a + Z.of_nat i * d < b.
Proof.
  unfold packets_before_stop. intros Hi.
  assert (0 < (b - a - 1) / d) as Hq by lia.
  pose proof (Z.mul_div_le (b - a - 1) d Hd) as Hle.
  assert (Z.of_nat i ≤ (b - a - 1) / d) as Hiq by lia.
  nia.
Qed.

Lemma packets_before_stop_next :
  b ≤ a + Z.of_nat (S (packets_before_stop a b d)) * d.
Proof.
  unfold packets_before_stop.
  destruct (Z.le_gt_cases 0 ((b - a - 1) / d)) as [Hq|Hq].
  - rewrite Nat2Z.inj_succ, Z2Nat.id by done.
    pose proof (Z.mod_pos_bound (b - a - 1) d Hd) as Hm.
    pose proof (Z.div_mod (b - a - 1) d ltac:(lia)) as Hdm. nia.
  - assert (Z.to_nat ((b - a - 1) / d) = 0%nat) as -> by lia.
    assert (b - a - 1 < 0) as Hneg; [|lia].
    destruct (Z.le_gt_cases 0 (b - a - 1)) as [Hge|?]; [|done].
    pose proof (Z.div_pos (b - a - 1) d Hge Hd). lia.
Qed.

Lemma send_step stop (j : nat) :
  a + Z.of_nat (S j) * d < b → a + Z.of_nat (S j) * d ≤ stop →
  step body stop (running_state packetSize d dscp a b j)
  = Some (running_state packetSize d dscp a b (S j)).
Proof.
  intros Hb Hstop. unfold running_state at 1. rewrite enqueue_send_before by done.
  unfold step. cbn [queue scheduled_time cancelled].
  rewrite (proj2 (Z.ltb_ge stop _)) by done.
  unfold execute, advance, record_execution. cbn [action body].
  rewrite SendPacket_run, ScheduleTx_run.
  cbn [m_running m_socket m_packetSize m_interval m_sendEvent m_packetsSent m_dscp].
  rewrite schedule_nonneg by lia. unfold schedule. rewrite (proj2 (Z.ltb_ge d 0)) by lia.
  cbn [fst snd clock next_sequence queue executed event_id now scheduled_time].
  unfold running_state, send_events, packets_until, wrap32.
  rewrite !(seq_S j 1), !fmap_app, Z.add_mod_idemp_l by lia.
  cbn [fmap list_fmap option_fmap option_map Send ipTos closed sent app].
  unfold Send. cbn [ipTos closed sent].
  repeat first [reflexivity | lia | progress f_equal].
Qed.

Lemma run_to_running_state stop (j : nat) :
  (j ≤ packets_before_stop a b d)%nat → a + Z.of_nat j * d ≤ stop →
  lifecycle packetSize d dscp a b (S j) stop = running_state packetSize d dscp a b j.
Proof.
  unfold lifecycle. induction j as [|j IH]; intros Hj Hstop.
  - rewrite run_until_S, start_step by lia. done.
  - rewrite run_until_snoc, IH by lia.
    rewrite send_step; [done| |done].
    apply packets_before_stop_spec. lia.
Qed.

Lemma running_state_waits stop (j : nat) :
  stop < b → stop < a + Z.of_nat (S j) * d →
  step body stop (running_state packetSize d dscp a b j) = None.
Proof.
  intros Hb Hnext. unfold running_state, step. cbn [queue enqueue].
  destruct (event_ltb _ _); cbn [scheduled_time];
    by rewrite (proj2 (Z.ltb_lt stop _)) by done.
Qed.

(** The state in which [StopApplication] leaves simulator and application
    after [j] sends. *)
Lemma stop_step stop (j : nat) :
  b ≤ a + Z.of_nat (S j) * d → b ≤ stop →
  ∃ s' app',
    step body stop (running_state packetSize d dscp a b j) = Some (s', app')
    ∧ quiet s' app'
    ∧ packets app' = packets_until packetSize a d j
    ∧ m_packetsSent app' = wrap32 (Z.of_nat j)
    ∧ (closed <$> m_socket app') = Some true.
Proof.
  intros Hnext Hstop. unfold running_state. rewrite enqueue_send_after by (done || lia).
  unfold step. cbn [queue scheduled_time cancelled].
  rewrite (proj2 (Z.ltb_ge stop b)) by done.
  unfold execute, advance, record_execution. cbn [action body].
  rewrite StopApplication_run. cbn [m_sendEvent].
  unfold is_pending. cbn [queue existsb insertion_sequence cancelled negb].
  rewrite Nat.eqb_refl. cbn [andb orb].
  eexists _, _. split; [reflexivity|]. split; [|by cbn].
  split; [done|]. cbn [cancel queue fmap list_fmap]. repeat constructor.
  unfold mark_inert. cbn [insertion_sequence]. by rewrite Nat.eqb_refl.
Qed.

End Periodic.

(** X1: the VoIP sender is periodic.  An application created, set up with a
    positive interval and given start time a and stop time b (0 <= a <= b)
    sends its packets at a + d, a + 2d, ... (the first one interval after
    the start), each of the configured size and stamped with its send time,
    as long as the time is before b.  A run stopped at a time before b,
    between packet j and packet j + 1, has sent exactly the first j
    packets; a run that reaches b has sent those strictly before b, has
    stopped and has closed the socket, and this stays so however far it
    runs on. *)
Theorem voip_sender_is_periodic (packetSize d dscp a b : Z) :
  0 ≤ a ≤ b → 0 < d →
  (∀ (j fuel : nat) (stop : Z),
      (j ≤ packets_before_stop a b d)%nat →
      a + Z.of_nat j * d ≤ stop → stop < a + Z.of_nat (S j) * d → stop < b →
      (S j ≤ fuel)%nat →
      let app := (lifecycle packetSize d dscp a b fuel stop).2 in
      packets app = packets_until packetSize a d j
      ∧ m_packetsSent app = wrap32 (Z.of_nat j)
      ∧ m_running app = true)
  ∧ (∀ (fuel : nat) (stop : Z),
      b ≤ stop → (packets_before_stop a b d + 2 ≤ fuel)%nat →
      let app := (lifecycle packetSize d dscp a b fuel stop).2 in
      packets app = packets_until packetSize a d (packets_before_stop a b d)
      ∧ m_packetsSent app = wrap32 (Z.of_nat (packets_before_stop a b d))
      ∧ m_running app = false
      ∧ (closed <$> m_socket app) = Some true).
Proof.
  intros Ha Hd. split.
  - intros j fuel stop Hj Hlo Hhi Hb Hfuel app. subst app.
    unfold lifecycle. rewrite (run_until_more body (S j) fuel); [|..|done].
    + fold (lifecycle packetSize d dscp a b (S j) stop).
      by rewrite run_to_running_state.
    + fold (lifecycle packetSize d dscp a b (S j) stop).
      rewrite run_to_running_state by done. by apply running_state_waits.
  - intros fuel stop Hstop Hfuel app. subst app.
    set (K := packets_before_stop a b d) in *.
    assert (a + Z.of_nat K * d ≤ stop) as HK.
    { destruct K as [|k] eqn:EK; [lia|].
      pose proof (packets_before_stop_spec d a b Hd (S k)) as Hlt.
      fold K in Hlt. rewrite EK in Hlt. lia. }
    replace fuel with (S K + (1 + (fuel - K - 2)))%nat by lia.
    unfold lifecycle. rewrite run_until_add.
    fold (lifecycle packetSize d dscp a b (S K) stop).
    rewrite run_to_running_state by done.
    destruct (stop_step packetSize d dscp a b stop K)
      as (s' & app' & Hstep & Hq & Hp & Hn & Hc);
      [by apply packets_before_stop_next|done|].
    rewrite run_until_add. cbn [run_until]. rewrite Hstep.
    destruct (quiet_run_until (fuel - K - 2) stop s' app' Hq) as (Hp' & Hn' & Hr' & _).
    repeat split; try congruence. by apply closed_run_until.
Qed.

(** The call of the scenario: 160-byte packets every 20 ms from 1 s to 14 s.
    At 2 s the 50th packet has just been sent; in a run to the end the
    application has sent 649 packets and is stopped. *)
Lemma voip_sender_is_periodic_in_main :
  (0 ≤ Seconds 1 ≤ Seconds 14 ∧ 0 < MilliSeconds 20)
  ∧ packets (lifecycle 160 (MilliSeconds 20) 46 (Seconds 1) (Seconds 14) 60 (Seconds 2)).2
    = packets_until 160 (Seconds 1) (MilliSeconds 20) 50
  ∧ length (packets (lifecycle 160 (MilliSeconds 20) 46 (Seconds 1) (Seconds 14)
                               700 (Seconds 15)).2) = 649%nat.
Proof.
  split; [by vm_compute|].
  destruct (voip_sender_is_periodic 160 (MilliSeconds 20) 46 (Seconds 1) (Seconds 14))
    as [Hrun Hend]; [unfold Seconds, MilliSeconds; lia..|].
  split.
  - apply (Hrun 50%nat 60%nat (Seconds 2));
      [vm_compute; lia|unfold Seconds, MilliSeconds; lia..|lia].
  - destruct (Hend 700%nat (Seconds 15)) as [-> _];
      [unfold Seconds; lia|vm_compute; lia|by vm_compute].
Defined.



End Exercise05LifecycleFacts.

(** ** exercise03: what the failover handler does to a table *)

Module Exercise03FailoverFacts.
Import UInt32 Ipv4 Routing Scheduler SchedulerFacts RoutingFacts.
Import Exercise03 Exercise03Facts Exercise03Failover.

Section Delete.
Context {A : Type} (P : A → Prop) `{!∀ x, Decision (P x)}.

Lemma filter_delete_other (l : list A) i x :
  l !! i = Some x → ¬ P x → filter P (delete i l) = filter P l.
Proof.
  intros Hi Hx. rewrite <- (take_drop_middle l i x Hi) at 2.
  rewrite delete_take_drop, !filter_app, filter_cons_False by done. done.
Qed.

Lemma filter_delete_length (l : list A) i x :
  l !! i = Some x → P x → S (length (filter P (delete i l))) = length (filter P l).
Proof.
  intros Hi Hx. rewrite <- (take_drop_middle l i x Hi) at 2.
  rewrite delete_take_drop, !filter_app, filter_cons_True by done.
  rewrite !length_app. cbn. lia.
Qed.

End Delete.

Lemma remove_old_route_cases destNetwork mask (t : table) :
  (remove_old_route destNetwork mask t = t
   ∧ ∀ r, r ∈ t → ¬ same_network destNetwork mask r)
  ∨ ∃ i r, t !! i = Some r ∧ same_network destNetwork mask r
           ∧ remove_old_route destNetwork mask t = delete i t.
Proof.
  unfold remove_old_route, RemoveRoute.
  destruct (find_old_route destNetwork mask t 0) as [n|] eqn:E.
  - right. apply find_old_route_Some in E as (i & r & -> & Hi & Hr & _).
    exists i, r. done.
  - left. split; [done|]. by apply (find_old_route_None destNetwork mask t 0).
Qed.

Lemma remove_old_route_elsewhere destNetwork mask (t : table) :
  routes_elsewhere destNetwork mask (remove_old_route destNetwork mask t)
  = routes_elsewhere destNetwork mask t.
Proof.
  unfold routes_elsewhere.
  destruct (remove_old_route_cases destNetwork mask t)
    as [[-> _]|(i & r & Hi & Hr & ->)]; [done|].
  apply (filter_delete_other _ _ _ r); [done|tauto].
Qed.

Lemma routes_to_nil destNetwork mask (t : table) :
  (∀ r, r ∈ t → ¬ same_network destNetwork mask r) → routes_to destNetwork mask t = [].
Proof.
  unfold routes_to. induction t as [|r t IH]; intros Hno; [done|].
  rewrite filter_cons_False by (apply Hno; left).
  apply IH. intros r' Hin. apply Hno. by right.
Qed.

Lemma remove_old_route_to destNetwork mask (t : table) :
  length (routes_to destNetwork mask (remove_old_route destNetwork mask t))
  = pred (length (routes_to destNetwork mask t)).
Proof.
  unfold routes_to.
  destruct (remove_old_route_cases destNetwork mask t)
    as [[-> Hno]|(i & r & Hi & Hr & ->)].
  - fold (routes_to destNetwork mask t). by rewrite routes_to_nil.
  - by rewrite <- (filter_delete_length _ _ _ r Hi Hr).
Qed.

Lemma remove_old_route_subset destNetwork mask (t : table) r :
  r ∈ remove_old_route destNetwork mask t → r ∈ t.
Proof.
  destruct (remove_old_route_cases destNetwork mask t)
    as [[-> _]|(i & r' & Hi & Hr & ->)]; [done|].
  rewrite delete_take_drop. rewrite <- (take_drop_middle t i r' Hi) at 3.
  intros [Hin|Hin]%elem_of_app; apply elem_of_app; [by left|right; by right].
Qed.

Lemma routes_to_nil_inv destNetwork mask (t : table) r :
  routes_to destNetwork mask t = [] → r ∈ t → ¬ same_network destNetwork mask r.
Proof.
  intros Hnil Hin Hr. assert (r ∈ routes_to destNetwork mask t) as Hin'.
  { apply list_elem_of_filter. by split. }
  rewrite Hnil in Hin'. by apply elem_of_nil in Hin'.
Qed.

Lemma conflicts_sym e1 e2 : conflicts e1 e2 → conflicts e2 e1.
Proof.
  unfold conflicts. intros (Hd & Hm & [[Hg Hi]|[Hg Hmet]]).
  - split; [done|]. split; [done|]. by left.
  - split; [done|]. split; [done|]. right. split; [congruence|done].
Qed.

Lemma add_appends (t : table) dest mask nextHop interface metric :
  ¬ Exists (conflicts (mkRoute dest mask nextHop interface metric)) t →
  AddNetworkRouteTo t dest mask nextHop interface metric
  = t ++ [mkRoute dest mask nextHop interface metric].
Proof. intros Hno. unfold AddNetworkRouteTo. cbv zeta. by rewrite decide_False. Qed.

Lemma add_keeps (t : table) dest mask nextHop interface metric :
  Exists (conflicts (mkRoute dest mask nextHop interface metric)) t →
  AddNetworkRouteTo t dest mask nextHop interface metric = t.
Proof. intros Hex. unfold AddNetworkRouteTo. cbv zeta. by rewrite decide_True. Qed.

Lemma consistent_delete (t : table) i : consistent t → consistent (delete i t).
Proof.
  intros Hc j1 j2 e1 e2 Hne H1 H2.
  destruct (decide (j1 < i)%nat), (decide (j2 < i)%nat).
  - rewrite list_lookup_delete_lt in H1, H2 by lia. by apply (Hc j1 j2).
  - rewrite list_lookup_delete_lt in H1 by lia.
    rewrite list_lookup_delete_ge in H2 by lia. apply (Hc j1 (S j2)); [lia|done..].
  - rewrite list_lookup_delete_ge in H1 by lia.
    rewrite list_lookup_delete_lt in H2 by lia. apply (Hc (S j1) j2); [lia|done..].
  - rewrite list_lookup_delete_ge in H1, H2 by lia. apply (Hc (S j1) (S j2)); [lia|done..].
Qed.

Lemma consistent_snoc (t : table) new :
  consistent t → ¬ Exists (conflicts new) t → consistent (t ++ [new]).
Proof.
  intros Hc Hno j1 j2 e1 e2 Hne H1 H2 Hconf.
  assert (∀ e, e ∈ t → ¬ conflicts new e) as Hnew.
  { intros e Hin He. apply Hno, Exists_exists. by exists e. }
  destruct (decide (j1 < length t)%nat) as [Hj1|Hj1],
           (decide (j2 < length t)%nat) as [Hj2|Hj2].
  - rewrite lookup_app_l in H1, H2 by done. by apply (Hc _ _ _ _ Hne H1 H2).
  - rewrite lookup_app_l in H1 by done. rewrite lookup_app_r in H2 by lia.
    destruct (j2 - length t)%nat as [|n]; [|done]. injection H2 as <-.
    apply (Hnew e1); [by eapply list_elem_of_lookup_2|by apply conflicts_sym].
  - rewrite lookup_app_l in H2 by done. rewrite lookup_app_r in H1 by lia.
    destruct (j1 - length t)%nat as [|n]; [|done]. injection H1 as <-.
    apply (Hnew e2); [by eapply list_elem_of_lookup_2|done].
  - rewrite lookup_app_r in H1, H2 by lia.
    destruct (j1 - length t)%nat as [|n1] eqn:E1; [|done].
    destruct (j2 - length t)%nat as [|n2] eqn:E2; [|done]. lia.
Qed.

Lemma consistent_add (t : table) dest mask nextHop interface metric :
  consistent t → consistent (AddNetworkRouteTo t dest mask nextHop interface metric).
Proof.
  intros Hc. unfold AddNetworkRouteTo. cbv zeta.
  destruct (decide _); [done|by apply consistent_snoc].
Qed.

Lemma consistent_remove_old_route destNetwork mask (t : table) :
  consistent t → consistent (remove_old_route destNetwork mask t).
Proof.
  intros Hc. destruct (remove_old_route_cases destNetwork mask t)
    as [[-> _]|(i & r & _ & _ & ->)]; [done|by apply consistent_delete].
Qed.

Lemma main_cast_fails routingType primaryRate node :
  cast_to_static (main_world routingType primaryRate) node = None.
Proof.
  unfold cast_to_static, main_world. cbn [routingProtocol].
  destruct node as [|[|[|[|node]]]]; reflexivity.
Qed.

(** X3: what ActivateBackupRoute changes.  On a node whose routing
    protocol is not a static routing, the cast of the handler fails and
    nothing at all is changed; this is so on every node of the state main
    sets up.  On a node whose routing protocol is a static routing the
    handler removes at most one entry (the first route to the destination
    network) and adds at most one (the backup route with metric 50, as
    last entry); the backup route is added exactly when no entry left by
    the removal conflicts with it, and then for a table that held at most
    one route to the destination network it is the only route to that
    network afterwards.  The routes to every other network are the same
    and in the same order, a table that satisfies the invariant of the
    spec still does, no other node's table changes, and of the rest of the
    state only the end of the convergence and the mark of the failover are
    written. *)
Theorem activate_backup_route_effect :
  (∀ now node destNetwork mask nextHop interface w,
      let w' := ActivateBackupRoute now node destNetwork mask nextHop interface w in
      let backup := backup_route destNetwork mask nextHop interface in
      match cast_to_static w node with
      | None => w' = w
      | Some t =>
          let removed := remove_old_route destNetwork mask t in
          ∃ t', routes w' !! node = Some t'
            ∧ (Exists (conflicts backup) removed → t' = removed)
            ∧ (¬ Exists (conflicts backup) removed → t' = removed ++ [backup])
            ∧ ((length (routes_to destNetwork mask t) ≤ 1)%nat →
               t' = removed ++ [backup] ∧ routes_to destNetwork mask t' = [backup])
            ∧ routes_elsewhere destNetwork mask t' = routes_elsewhere destNetwork mask t
            ∧ (consistent t → consistent t')
            ∧ (∀ n, n ≠ node → routes w' !! n = routes w !! n)
            ∧ length (routes w') = length (routes w)
            ∧ routingProtocol w' = routingProtocol w
            ∧ dataRate w' = dataRate w
            ∧ totalPacketsSent w' = totalPacketsSent w
            ∧ totalPacketsReceived w' = totalPacketsReceived w
            ∧ failureOccurred w' = failureOccurred w
            ∧ convergenceStartTime w' = convergenceStartTime w
            ∧ convergenceEndTime w' = now
            ∧ backupRouteActivated w' = true
      end)
  ∧ (∀ routingType primaryRate now node destNetwork mask nextHop interface,
      ActivateBackupRoute now node destNetwork mask nextHop interface
        (main_world routingType primaryRate)
      = main_world routingType primaryRate).
Proof.
  split.
  - intros now node destNetwork mask nextHop interface w w' backup. subst w'.
    unfold ActivateBackupRoute.
    destruct (cast_to_static w node) as [t|] eqn:Hcast; [|done].
    pose proof (cast_to_static_routes _ _ _ Hcast) as Hnode.
    pose proof (lookup_lt_Some _ _ _ Hnode) as Hlt.
    cbv zeta.
    cbn [routes dataRate totalPacketsSent totalPacketsReceived failureOccurred
         convergenceStartTime convergenceEndTime backupRouteActivated routingProtocol].
    set (removed := remove_old_route destNetwork mask t).
    eexists. split; [by apply list_lookup_insert_eq|].
    fold (backup_route destNetwork mask nextHop interface). fold backup.
    split; [intros Hex; by apply add_keeps|].
    split; [intros Hno; by apply add_appends|].
    split; [|split; [|split; [|split; [|split]]]].
    + intros Hone.
      assert (routes_to destNetwork mask removed = []) as Hnil.
      { apply length_zero_iff_nil. subst removed. rewrite remove_old_route_to. lia. }
      assert (¬ Exists (conflicts backup) removed) as Hno.
      { intros (r & Hin & Hd & Hm & _)%Exists_exists.
        by apply (routes_to_nil_inv destNetwork mask removed r Hnil Hin). }
      unfold backup, backup_route in *. rewrite add_appends by done. split; [done|].
      unfold routes_to in *. rewrite filter_app, Hnil, filter_cons_True by done. done.
    + unfold AddNetworkRouteTo. cbv zeta. destruct (decide _).
      * apply remove_old_route_elsewhere.
      * unfold routes_elsewhere.
        rewrite filter_app, filter_cons_False by (intros H; by apply H).
        rewrite filter_nil, app_nil_r. apply remove_old_route_elsewhere.
    + intros Hc. by apply consistent_add, consistent_remove_old_route.
    + intros n Hn. by apply list_lookup_insert_ne.
    + by rewrite length_insert.
    + done.
  - intros routingType primaryRate now node destNetwork mask nextHop interface.
    unfold ActivateBackupRoute. by rewrite main_cast_fails.
Qed.

(** DC-A under manual failover.  In the state main sets up the handler
    changes nothing.  On a stack with a static routing protocol it removes
    the primary route and adds nothing, the backup route through 10.1.3.2
    and interface 3 being in the table already. *)
Lemma activate_backup_route_effect_at_dca :
  ActivateBackupRoute (Seconds 7) dcA (dotted 10 1 4 0) mask24 (dotted 10 1 3 2) 3
    (main_world "manual-failover" 10000000)
  = main_world "manual-failover" 10000000
  ∧ routes (ActivateBackupRoute (Seconds 7) dcA (dotted 10 1 4 0) mask24 (dotted 10 1 3 2) 3
              (static_stack_world "manual-failover" 10000000)) !! dcA
    = Some [mkRoute (dotted 10 1 4 0) mask24 (dotted 10 1 3 2) 3 50;
            mkRoute (dotted 10 1 4 0) mask24 (dotted 10 1 5 2) 4 100].
Proof.
  destruct activate_backup_route_effect as [Hcast Hmain]. split; [apply Hmain|].
  pose proof (Hcast (Seconds 7) dcA (dotted 10 1 4 0) mask24 (dotted 10 1 3 2) 3
                (static_stack_world "manual-failover" 10000000)) as H.
  cbv zeta in H.
  change (cast_to_static (static_stack_world "manual-failover" 10000000) dcA)
    with (Some dca_manual_failover) in H.
  destruct H as (t' & -> & Hkeep & _). f_equal. apply Hkeep.
  apply Exists_exists.
  exists (mkRoute (dotted 10 1 4 0) mask24 (dotted 10 1 3 2) 3 50).
  split; [by left|]. split; [done|]. split; [done|]. by left.
Defined.

Lemma lookup_backup_last (t : table) (b : Ipv4RoutingTableEntry) (a : Z) :
  Contains a b →
  (∀ e, e ∈ t → Contains a e →
        (PrefixLen e < PrefixLen b)%nat
        ∨ (PrefixLen e = PrefixLen b ∧ GetMetric b < GetMetric e)) →
  LookupStatic (t ++ [b]) a = Some b.
Proof.
  intros Hb Hworse. apply LookupStatic_Some. exists (length t).
  split; [by rewrite lookup_app_r, Nat.sub_diag by lia|]. split; [done|].
  intros j e' Hj He'. unfold preferred.
  destruct (decide (j < length t)%nat) as [Hlt|Hge].
  - rewrite lookup_app_l in Hj by done.
    destruct (Hworse e') as [?|[? ?]]; [by eapply list_elem_of_lookup_2|done|by left|].
    right. split; [done|]. by left.
  - rewrite lookup_app_r in Hj by lia.
    destruct (j - length t)%nat as [|n] eqn:E; [|done].
    injection Hj as <-. right. split; [done|]. right. split; [done|lia].
Qed.

Lemma lookup_backup_shadowed (t : table) (b e : Ipv4RoutingTableEntry) (a : Z) :
  e ∈ t → Contains a e →
  (PrefixLen b < PrefixLen e)%nat
  ∨ (PrefixLen e = PrefixLen b ∧ GetMetric e ≤ GetMetric b) →
  LookupStatic (t ++ [b]) a = LookupStatic t a.
Proof.
  intros Hin He Hbetter.
  destruct (LookupStatic t a) as [e0|] eqn:E.
  - apply LookupStatic_Some in E as (i0 & Hi0 & He0 & Hpref).
    apply LookupStatic_Some. exists i0.
    pose proof (lookup_lt_Some _ _ _ Hi0) as Hlt.
    split; [by rewrite lookup_app_l|]. split; [done|].
    intros j e' Hj He'.
    destruct (decide (j < length t)%nat) as [Hj'|Hj'].
    + rewrite lookup_app_l in Hj by done. by apply Hpref.
    + rewrite lookup_app_r in Hj by lia.
      destruct (j - length t)%nat as [|n] eqn:Ej; [|done].
      injection Hj as <-.
      apply list_elem_of_lookup in Hin as [je Hje].
      specialize (Hpref je e Hje He). unfold preferred in *. lia.
  - exfalso. by apply (proj1 (LookupStatic_None t a) E e).
Qed.

End Exercise03FailoverFacts.

(** ** exercise03: the run of the scenario *)

Module Exercise03RunFacts.
Import UInt32 Ipv4 Routing Scheduler SchedulerFacts.
Import Exercise03 Exercise03Facts Exercise03Failover Exercise03FailoverFacts RoutingFacts.

Section Setup.
Context {A : Type}.



End Setup.

(** No action of the scenario schedules or cancels anything. *)
Lemma body_queue a w (s : Sim callback) : (run (body a w) s).2 = s.
Proof. by destruct a. Qed.

Lemma run_until_preserves (Q : callback → Prop) (P : World → Prop) :
  (∀ a w (s : Sim callback), Q a → P w → P (run (body a w) s).1) →
  ∀ fuel stop (s : Sim callback) w,
    Forall (λ e, Q (action e)) (queue s) → P w →
    P (run_until body fuel stop (s, w)).2.
Proof.
  intros Hbody fuel stop. induction fuel as [|n IH]; intros s w Hq Hw; [done|].
  rewrite run_until_S. unfold step.
  destruct (queue s) as [|e q] eqn:Hqueue; [done|].
  destruct (stop <? scheduled_time e); [done|].
  apply Forall_cons in Hq as [He Hq].
  destruct (cancelled e).
  - by apply IH.
  - unfold execute.
    pose proof (body_queue (action e) w (record_execution e (advance e q s))) as Hs.
    pose proof (Hbody (action e) w (record_execution e (advance e q s)) He Hw) as Hw'.
    destruct (run (body (action e) w) (record_execution e (advance e q s))) as [w' s'].
    cbn [fst snd] in *. subst s'. by apply IH.
Qed.



Lemma main_run_before routingType failureTime stop fuel :
  0 ≤ failureTime → stop < failureTime →
  (main_run routingType failureTime fuel stop).2 = main_world routingType 10000000.
Proof.
  intros Hft Hstop. unfold main_run, main_calls.
  generalize (main_world routingType 10000000) as w. intros w.
  destruct (String.eqb routingType "manual-failover");
    [|destruct (String.eqb routingType "global")];
    setup_queue; stop_here; reflexivity.
Qed.

Lemma main_run_failed routingType failureTime stop fuel :
  0 ≤ failureTime → failureTime ≤ stop →
  ∃ s,
    main_run routingType failureTime (S (S fuel)) stop
    = run_until body fuel stop
        (s, SimulateLinkFailure failureTime drBPrimaryDev
              (SimulateLinkFailure failureTime dcAPrimaryDev
                 (main_world routingType 10000000)))
    ∧ Forall (λ e, ∀ device, action e ≠ ASimulateLinkFailure device) (queue s).
Proof.
  intros Hft Hstop. unfold main_run, main_calls.
  generalize (main_world routingType 10000000) as w. intros w.
  destruct (String.eqb routingType "manual-failover");
    [|destruct (String.eqb routingType "global")];
    setup_queue; do 2 pop_event; (eexists; split; [reflexivity|]);
    cbn [queue]; repeat constructor; done.
Qed.

(** X6: the link failure in the run of the scenario, for every routing
    type.  Before the failure time the scheduled events have changed
    nothing: tables and device rates are those of the set-up and neither
    failure nor failover is recorded (the packet counters belong to the
    traffic, which is no part of this run).  From the failure time on both
    ends of the primary link, and no other device, run at 1 bit/s, the
    failure is recorded with its time, and this stays so to the end of the
    run, failover or not: no action sets a rate back. *)
Theorem link_failure_is_permanent routingType failureTime fuel stop :
  0 ≤ failureTime →
  let w' := (main_run routingType failureTime fuel stop).2 in
  (stop < failureTime →
     routes w' = main_routes routingType
     ∧ dataRate w' = dataRate (main_world routingType 10000000)
     ∧ failureOccurred w' = false
     ∧ backupRouteActivated w' = false)
  ∧ (failureTime ≤ stop → (2 ≤ fuel)%nat →
     dataRate w' = <[drBPrimaryDev := 1]>
                     (<[dcAPrimaryDev := 1]> (dataRate (main_world routingType 10000000)))
     ∧ dataRate w' !! dcAPrimaryDev = Some 1
     ∧ dataRate w' !! drBPrimaryDev = Some 1
     ∧ (∀ device, device ≠ dcAPrimaryDev → device ≠ drBPrimaryDev →
                  dataRate w' !! device
                  = dataRate (main_world routingType 10000000) !! device)
     ∧ failureOccurred w' = true
     ∧ convergenceStartTime w' = failureTime).
Proof.
  intros Hft w'. subst w'. split; [intros Hstop; by rewrite main_run_before|].
  intros Hstop Hfuel. destruct fuel as [|[|fuel]]; [lia|lia|].
  destruct (main_run_failed routingType failureTime stop fuel Hft Hstop) as (s & -> & Hq).
  set (D := <[drBPrimaryDev := 1]>
              (<[dcAPrimaryDev := 1]> (dataRate (main_world routingType 10000000)))).
  assert (dataRate (run_until body fuel stop
            (s, SimulateLinkFailure failureTime drBPrimaryDev
                  (SimulateLinkFailure failureTime dcAPrimaryDev
                     (main_world routingType 10000000)))).2 = D
          ∧ failureOccurred (run_until body fuel stop
            (s, SimulateLinkFailure failureTime drBPrimaryDev
                  (SimulateLinkFailure failureTime dcAPrimaryDev
                     (main_world routingType 10000000)))).2 = true
          ∧ convergenceStartTime (run_until body fuel stop
            (s, SimulateLinkFailure failureTime drBPrimaryDev
                  (SimulateLinkFailure failureTime dcAPrimaryDev
                     (main_world routingType 10000000)))).2 = failureTime)
    as (HD & Hf & Hc).
  { apply (run_until_preserves
             (λ a, ∀ device, a ≠ ASimulateLinkFailure device)
             (λ w, dataRate w = D ∧ failureOccurred w = true
                   ∧ convergenceStartTime w = failureTime)); [|done|done].
    intros a w s' Ha Hw. destruct a as [dev|n d m g i| | |]; cbn; try done.
    - by destruct (Ha dev).
    - unfold ActivateBackupRoute. by destruct (cast_to_static w n). }
  rewrite HD. split; [done|]. split; [done|]. split; [done|].
  split; [|done].
  intros device H1 H2. subst D.
  rewrite !list_lookup_insert_ne by done. done.
Qed.

(** Failure at 5 s, run to 20 s under manual failover. *)
Lemma link_failure_is_permanent_at_20s :
  let w' := (main_run "manual-failover" (Seconds 5) 10 (Seconds 20)).2 in
  dataRate w' !! dcAPrimaryDev = Some 1
  ∧ dataRate w' !! drBPrimaryDev = Some 1
  ∧ failureOccurred w' = true
  ∧ convergenceStartTime w' = Seconds 5.
Proof.
  destruct (link_failure_is_permanent "manual-failover" (Seconds 5) 10 (Seconds 20))
    as [_ H]; [unfold Seconds; lia|].
  destruct H as (_ & H1 & H2 & _ & H3 & H4); [unfold Seconds; lia|lia|].
  by repeat split.
Defined.

Lemma body_keeps_main_tables routingType a w (s : Sim callback) :
  routes w = main_routes routingType ∧ backupRouteActivated w = false
  ∧ convergenceEndTime w = 0 ∧ routingProtocol w = replicate 4 Ipv4ListRouting →
  routes (run (body a w) s).1 = main_routes routingType
  ∧ backupRouteActivated (run (body a w) s).1 = false
  ∧ convergenceEndTime (run (body a w) s).1 = 0
  ∧ routingProtocol (run (body a w) s).1 = replicate 4 Ipv4ListRouting.
Proof.
  intros (Hr & Hb & Hc & Hp). destruct a as [dev|n d m g i| | |]; cbn; try done.
  unfold ActivateBackupRoute, cast_to_static. rewrite Hp.
  by destruct n as [|[|[|[|n]]]].
Qed.

Lemma main_run_keeps_tables routingType failureTime fuel stop :
  routes (main_run routingType failureTime fuel stop).2 = main_routes routingType
  ∧ backupRouteActivated (main_run routingType failureTime fuel stop).2 = false
  ∧ convergenceEndTime (main_run routingType failureTime fuel stop).2 = 0.
Proof.
  unfold main_run.
  destruct (run_until_preserves (λ _, True)
              (λ w, routes w = main_routes routingType ∧ backupRouteActivated w = false
                    ∧ convergenceEndTime w = 0
                    ∧ routingProtocol w = replicate 4 Ipv4ListRouting)
              (λ a w s _, body_keeps_main_tables routingType a w s)
              fuel stop (setup (main_calls routingType failureTime))
              (main_world routingType 10000000))
    as (H1 & H2 & H3 & _); [by apply Forall_forall|done|done].
Qed.

(** X4: whether the failover takes effect.  In the runs of main it does
    not: every node has the list routing of the default stack, the cast of
    ActivateBackupRoute fails, and for every routing type, manual failover
    included, at every stop time the tables are those of the set-up, no
    failover is recorded, and under manual failover DC-A goes on routing
    10.1.4.2 through the primary next hop.  On a node whose routing
    protocol is a static routing (the cast succeeds), an address of the
    destination network is routed through the backup next hop and
    interface after the handler when no entry left by the removal
    conflicts with the backup route and every such entry that contains the
    address has a shorter prefix, or the same prefix and a metric above
    50.  When an entry is left that contains the address with a longer
    prefix, or with the same prefix and a metric of at most 50 (as a
    second old route to the same network, since only the first one is
    removed), or that conflicts with the backup route, the lookup is what
    it is on the table the removal has left. *)
Theorem backup_route_preferred_or_shadowed :
  (∀ routingType failureTime fuel stop,
      0 ≤ failureTime →
      let w' := (main_run routingType failureTime fuel stop).2 in
      routes w' = main_routes routingType
      ∧ backupRouteActivated w' = false
      ∧ convergenceEndTime w' = 0
      ∧ (routingType = "manual-failover"%string →
         (routes w' !! dcA ≫= λ t, lookup t (dotted 10 1 4 2)) = Some (dotted 10 1 4 2, 2)))
  ∧ (∀ now node destNetwork mask nextHop interface w t a,
      cast_to_static w node = Some t →
      IsMatch mask a destNetwork = true →
      let w' := ActivateBackupRoute now node destNetwork mask nextHop interface w in
      let removed := remove_old_route destNetwork mask t in
      let backup := backup_route destNetwork mask nextHop interface in
      let after := routes w' !! node ≫= λ t, lookup t a in
      (¬ Exists (conflicts backup) removed →
       (∀ e, e ∈ removed → Contains a e →
             (PrefixLen e < GetPrefixLength mask)%nat
             ∨ (PrefixLen e = GetPrefixLength mask ∧ 50 < GetMetric e)) →
       after = Some (nextHop, interface))
      ∧ ((∃ e, e ∈ removed ∧ Contains a e
               ∧ ((GetPrefixLength mask < PrefixLen e)%nat
                  ∨ (PrefixLen e = GetPrefixLength mask ∧ GetMetric e ≤ 50))) →
         after = lookup removed a)
      ∧ (Exists (conflicts backup) removed → after = lookup removed a)).
Proof.
  split.
  - intros routingType failureTime fuel stop _ w'. subst w'.
    destruct (main_run_keeps_tables routingType failureTime fuel stop) as (Hr & Hb & Hc).
    split; [done|]. split; [done|]. split; [done|].
    intros ->. rewrite Hr. reflexivity.
  - intros now node destNetwork mask nextHop interface w t a Hcast Ha w' removed backup after.
    subst w' after. unfold ActivateBackupRoute. rewrite Hcast. cbn [routes].
    rewrite list_lookup_insert_eq
      by (eapply lookup_lt_Some; by apply cast_to_static_routes).
    cbn [mbind option_bind]. fold removed. unfold lookup.
    split; [|split].
    + intros Hno Hworse. unfold backup, backup_route in Hno.
      rewrite add_appends by done.
      rewrite lookup_backup_last; [done|done|].
      intros e Hin He. by apply Hworse.
    + intros (e & Hin & He & Hbetter). unfold AddNetworkRouteTo. cbv zeta.
      destruct (decide _); [done|]. by rewrite (lookup_backup_shadowed removed _ e).
    + intros Hex. unfold backup, backup_route in Hex. by rewrite add_keeps.
Qed.

(** DC-A under manual failover, failure at 5 s, run to 20 s: in the run of
    main the failover changes nothing.  On a stack with a static routing
    protocol, in the static set-up, DC-A's only route to 10.1.4.0/24 is
    removed and the backup route decides. *)
Lemma backup_route_preferred_or_shadowed_at_dca :
  (let w' := (main_run "manual-failover" (Seconds 5) 10 (Seconds 20)).2 in
   backupRouteActivated w' = false
   ∧ (routes w' !! dcA ≫= λ t, lookup t (dotted 10 1 4 2)) = Some (dotted 10 1 4 2, 2))
  ∧ (let w := static_stack_world "static" 10000000 in
     (routes (ActivateBackupRoute (Seconds 7) dcA (dotted 10 1 4 0) mask24
                (dotted 10 1 3 2) 3 w)
        !! dcA ≫= λ t, lookup t (dotted 10 1 4 2)) = Some (dotted 10 1 3 2, 3)).
Proof.
  destruct backup_route_preferred_or_shadowed as [Hmain Hcast]. split.
  - destruct (Hmain "manual-failover"%string (Seconds 5) 10%nat (Seconds 20))
      as (_ & Hb & _ & Hl); [unfold Seconds; lia|].
    split; [exact Hb|by apply Hl].
  - cbv zeta.
    apply (proj1 (Hcast (Seconds 7) dcA (dotted 10 1 4 0) mask24 (dotted 10 1 3 2) 3
                    (static_stack_world "static" 10000000) dca_primary (dotted 10 1 4 2)
                    eq_refl eq_refl)).
    + intros (e & Hin & _)%Exists_exists. by apply elem_of_nil in Hin.
    + intros e Hin. by apply elem_of_nil in Hin.
Defined.

End Exercise03RunFacts.

(** ** exercise02: DisableInterface and the interface flags *)

Module Exercise02InterfacesFacts.
Import Scheduler SchedulerFacts Exercise02 Exercise02Interfaces.

Lemma DisableInterface_lookup node i w n :
  DisableInterface node i w !! n
  = if decide (n = node) then SetDown i <$> w !! n else w !! n.
Proof.
  unfold DisableInterface, world in *. destruct (decide (n = node)) as [->|Hn].
  - destruct (w !! node) as [ipv4|] eqn:E.
    + rewrite list_lookup_insert_eq by (by eapply lookup_lt_Some). done.
    + by rewrite E.
  - destruct (w !! node); [|done]. by rewrite list_lookup_insert_ne.
Qed.

Lemma is_up_DisableInterface node i w n j :
  is_up (DisableInterface node i w) n j
  = if decide (n = node ∧ j = i) then (λ _, false) <$> is_up w n j else is_up w n j.
Proof.
  unfold is_up. rewrite DisableInterface_lookup. unfold world in *.
  destruct (decide (n = node)) as [->|Hn].
  - destruct (w !! node) as [ipv4|]; cbn; [|by destruct (decide _)].
    unfold SetDown. destruct (decide (j = i)) as [->|Hj].
    + rewrite decide_True by done.
      destruct (ipv4 !! i) eqn:E.
      * rewrite list_lookup_insert_eq by (by eapply lookup_lt_Some). done.
      * rewrite list_insert_ge by (by apply lookup_ge_None). by rewrite E.
    + rewrite decide_False by tauto. by rewrite list_lookup_insert_ne.
  - rewrite decide_False by tauto. done.
Qed.

(** X7: DisableInterface takes down the one interface it names and
    nothing else: every other flag of every node is as before, no
    interface comes up, no node or interface appears or disappears;
    disabling twice is disabling once, and two calls give the same state
    in either order. *)
Theorem disable_interface_frame_idempotent_commutes :
  (∀ node i w n j,
      is_up (DisableInterface node i w) n j
      = if decide (n = node ∧ j = i) then (λ _, false) <$> is_up w n j else is_up w n j)
  ∧ (∀ node i w n j,
      is_up (DisableInterface node i w) n j = Some true → is_up w n j = Some true)
  ∧ (∀ node i w,
      length (DisableInterface node i w) = length w
      ∧ length <$> DisableInterface node i w = length <$> w)
  ∧ (∀ node i w,
      DisableInterface node i (DisableInterface node i w) = DisableInterface node i w)
  ∧ (∀ node1 i1 node2 i2 w,
      DisableInterface node1 i1 (DisableInterface node2 i2 w)
      = DisableInterface node2 i2 (DisableInterface node1 i1 w)).
Proof.
  split; [exact is_up_DisableInterface|].
  split; [|split; [|split]].
  - intros node i w n j. rewrite is_up_DisableInterface.
    destruct (decide _); [|done]. by destruct (is_up w n j).
  - intros node i w. split.
    + unfold DisableInterface, world in *. destruct (w !! node); [|done].
      by rewrite length_insert.
    + apply list_eq. intros n. rewrite !list_lookup_fmap, DisableInterface_lookup.
      unfold world in *.
      destruct (decide _); [|done]. destruct (w !! n); [|done].
      cbn. unfold SetDown. by rewrite length_insert.
  - intros node i w. apply list_eq. intros n. rewrite !DisableInterface_lookup.
    unfold world in *.
    destruct (decide _); [|done]. destruct (w !! n); [|done].
    cbn. unfold SetDown. by rewrite list_insert_insert_eq.
  - intros node1 i1 node2 i2 w. apply list_eq. intros n. rewrite !DisableInterface_lookup.
    unfold world in *.
    destruct (decide (n = node1)), (decide (n = node2)); try done.
    destruct (w !! n) as [ipv4|]; [|done]. cbn. f_equal. unfold SetDown.
    destruct (decide (i1 = i2)) as [->|Hi]; [done|].
    by apply list_insert_insert_ne.
Qed.

Ltac flags_compare_times :=
  repeat match goal with
  | |- context [Z.ltb ?a ?b] =>
      first [ rewrite (proj2 (Z.ltb_lt a b)) by (unfold Seconds in *; lia)
            | rewrite (proj2 (Z.ltb_ge a b)) by (unfold Seconds in *; lia) ]
  end.

(** X8: the interfaces in the run of exercise02.  At every stop time
    before 6 s all interfaces of HQ, Branch and DC are up; at every stop
    time from 6 s on interface 2 of HQ and interface 1 of DC are down and
    every other interface is up, for the rest of the run. *)
Theorem interfaces_down_from_6s (fuel : nat) (stop : Z) :
  (stop < Seconds 6 → (main_run fuel stop).2 = main_world)
  ∧ (Seconds 6 ≤ stop → (2 ≤ fuel)%nat →
     (main_run fuel stop).2
     = [[true; true; false]; [true; true; true]; [true; false; true]]
     ∧ ∀ n j, is_up (main_run fuel stop).2 n j
              = if decide ((n = 0 ∧ j = 2) ∨ (n = 2 ∧ j = 1))%nat then Some false
                else is_up main_world n j).
Proof.
  unfold main_run.
  assert (setup main_calls
          = mkSim 0 2 [mkEvent (Seconds 6) 0 (ADisableInterface 0 2) false;
                       mkEvent (Seconds 6) 1 (ADisableInterface 2 1) false] [])
    as -> by reflexivity.
  split.
  - intros Hstop. destruct fuel as [|fuel]; [done|].
    rewrite run_until_S. unfold step. cbn [queue scheduled_time].
    by flags_compare_times.
  - intros Hstop Hfuel. destruct fuel as [|[|fuel]]; [lia|lia|].
    match goal with |- ?r = _ ∧ _ =>
      assert (r = DisableInterface 2 1 (DisableInterface 0 2 main_world)) as ->
    end.
    { do 2 (rewrite run_until_S; unfold step at 1; cbn [queue scheduled_time cancelled];
            flags_compare_times;
            unfold execute, advance, record_execution;
            cbn [queue scheduled_time cancelled action clock next_sequence executed
                 body run app]).
      by rewrite run_until_halted. }
    split; [reflexivity|].
    intros n j. rewrite !is_up_DisableInterface.
    destruct (decide (n = 2 ∧ j = 1)%nat) as [[-> ->]|H1];
      [reflexivity|].
    destruct (decide (n = 0 ∧ j = 2)%nat) as [[-> ->]|H2];
      [reflexivity|].
    by rewrite decide_False by tauto.
Qed.

(** The stop time of main: 16 s. *)
Lemma interfaces_down_from_6s_at_end :
  (main_run 5 main_stop).2 = [[true; true; false]; [true; true; true]; [true; false; true]].
Proof.
  apply (proj2 (interfaces_down_from_6s 5 main_stop)); [by vm_compute|lia].
Defined.

End Exercise02InterfacesFacts.

(** ** exercise05: what no run of the sender changes *)

Module Exercise05ConfigFacts.
Import UInt32 Scheduler SchedulerFacts Exercise05 Exercise05Facts Exercise05Lifecycle.

Section Invariant.
Context {A W : Type} (body : A → W → prog A W) (I : W → Prop).
Hypothesis body_keeps : ∀ a w (s : Sim A), I w → I (run (body a w) s).1.

Lemma run_until_invariant fuel stop (s : Sim A) w :
  I w → I (run_until body fuel stop (s, w)).2.
Proof.
  revert s w. induction fuel as [|n IH]; intros s w Hw; [done|].
  rewrite run_until_S. unfold step.
  destruct (queue s) as [|e q]; [done|].
  destruct (stop <? scheduled_time e); [done|].
  destruct (cancelled e); [by apply IH|].
  unfold execute.
  pose proof (body_keeps (action e) w (record_execution e (advance e q s)) Hw) as Hw'.
  destruct (run (body (action e) w) (record_execution e (advance e q s))) as [w' s'].
  by apply IH.
Qed.

End Invariant.

Lemma body_configured packetSize interval dscp a app (s : Sim callback) :
  configured packetSize interval dscp app →
  configured packetSize interval dscp (run (body a app) s).1.
Proof.
  intros (Hsize & Hint & Hdscp & Hsock). unfold configured. destruct a; cbn [body].
  - unfold StartApplication. rewrite ScheduleTx_run.
    cbn [m_running m_socket m_packetSize m_interval m_sendEvent m_packetsSent m_dscp fst].
    split; [done|]. split; [done|]. split; [done|].
    intros sock [= <-]. destruct (m_socket app) as [sock0|] eqn:E; [by apply Hsock|].
    cbn [ipTos sent]. rewrite Hdscp. split; [done|constructor].
  - rewrite StopApplication_run. unfold stopped.
    cbn [m_running m_socket m_packetSize m_interval m_sendEvent m_packetsSent m_dscp fst].
    split; [done|]. split; [done|]. split; [done|].
    intros sock Hs. destruct (m_socket app) as [sock0|] eqn:E; [|done].
    injection Hs as <-. cbn [Close ipTos sent]. by apply Hsock.
  - rewrite SendPacket_run, ScheduleTx_run.
    cbn [m_running m_socket m_packetSize m_interval m_sendEvent m_packetsSent m_dscp].
    assert (∀ sock, Send (m_packetSize app, now s) <$> m_socket app = Some sock →
                    ipTos sock = tos_of_dscp dscp
                    ∧ Forall (λ p, p.1 = packetSize) (sent sock)) as Hsent.
    { intros sock Hs. destruct (m_socket app) as [sock0|] eqn:E; [|done].
      injection Hs as <-. cbn [Send ipTos sent].
      destruct (Hsock sock0 eq_refl) as [Htos Hall]. split; [done|].
      apply Forall_app. split; [done|]. by repeat constructor. }
    by destruct (m_running app).
Qed.

Lemma tos_of_dscp_bits (dscp : Z) :
  0 ≤ dscp < 256 →
  tos_of_dscp dscp = 4 * (dscp mod 64)
  ∧ Z.shiftr (tos_of_dscp dscp) 2 = dscp mod 64
  ∧ Z.land (tos_of_dscp dscp) 3 = 0.
Proof.
  intros Hd. unfold tos_of_dscp. rewrite Z.shiftl_mul_pow2 by lia.
  assert (dscp * 2 ^ 2 mod 256 = 4 * (dscp mod 64)) as ->.
  { change (2 ^ 2) with 4. Z.div_mod_to_equations. lia. }
  split; [done|]. split.
  - rewrite Z.shiftr_div_pow2 by lia. change (2 ^ 2) with 4.
    Z.div_mod_to_equations. lia.
  - change 3 with (Z.ones 2). rewrite Z.land_ones by lia. change (2 ^ 2) with 4.
    Z.div_mod_to_equations. lia.
Qed.

(** X2: the configuration of the VoIP sender holds in every run.  Whatever
    start, stop and send events are scheduled at the set-up and however far
    the run goes, packet size, interval and DSCP are those given to Setup,
    every packet handed to the socket has that packet size, and the socket,
    once created, carries the ToS byte DSCP << 2 cut to 8 bits: the low six
    bits of the DSCP value in the top six bits of the byte, the two low
    bits zero, so that a DSCP value below 64 is read back by shifting the
    byte right by 2, and a larger one loses its high bits. *)
Theorem voip_configuration_holds_in_every_run
        (packetSize interval startTime stopTime dscp : Z)
        (calls : list (Z * callback)) (fuel : nat) (stop : Z) :
  0 ≤ dscp < 256 →
  let app := (run_until body fuel stop
                (setup calls,
                 Setup packetSize interval startTime stopTime dscp VoipApplication_new)).2 in
  m_packetSize app = packetSize ∧ m_interval app = interval ∧ m_dscp app = dscp
  ∧ Forall (λ p, p.1 = packetSize) (packets app)
  ∧ ∀ sock, m_socket app = Some sock →
            ipTos sock = 4 * (dscp mod 64)
            ∧ Z.shiftr (ipTos sock) 2 = dscp mod 64
            ∧ Z.land (ipTos sock) 3 = 0
            ∧ (dscp < 64 → Z.shiftr (ipTos sock) 2 = dscp).
Proof.
  intros Hd app.
  assert (configured packetSize interval dscp app) as (Hsize & Hint & Hdscp & Hsock).
  { apply (run_until_invariant body (configured packetSize interval dscp)).
    - intros a w s. apply body_configured.
    - by repeat split. }
  split; [done|]. split; [done|]. split; [done|]. split.
  - unfold packets. destruct (m_socket app) as [sock|]; [|constructor].
    by apply (Hsock sock).
  - intros sock Hs. destruct (Hsock sock Hs) as [-> _].
    destruct (tos_of_dscp_bits dscp Hd) as (H1 & H2 & H3).
    split; [done|]. split; [done|]. split; [done|].
    intros Hlt. by rewrite H2, Z.mod_small by lia.
Qed.

(** The sender of main (DSCP 46, expedited forwarding) at 2 s: the socket
    carries the ToS byte 184. *)
Lemma voip_configuration_holds_in_main :
  let app := (run_until body 60 (Seconds 2)
                (setup main_calls,
                 Setup 160 (MilliSeconds 20) (Seconds 1) (Seconds 14) 46 VoipApplication_new)).2 in
  (ipTos <$> m_socket app) = Some 184
  ∧ m_packetSize app = 160 ∧ m_interval app = MilliSeconds 20 ∧ m_dscp app = 46
  ∧ Forall (λ p, p.1 = 160) (packets app).
Proof.
  cbv zeta.
  destruct (voip_configuration_holds_in_every_run 160 (MilliSeconds 20) (Seconds 1)
              (Seconds 14) 46 main_calls 60 (Seconds 2)) as (H1 & H2 & H3 & H4 & H5); [lia|].
  split; [|exact (conj H1 (conj H2 (conj H3 H4)))].
  match goal with |- ipTos <$> ?x = _ => destruct x as [sock|] eqn:E end.
  - cbn [fmap option_fmap option_map]. destruct (H5 sock eq_refl) as [Htos _].
    rewrite Htos. reflexivity.
  - vm_compute in E. discriminate E.
Defined.

End Exercise05ConfigFacts.

(** ** exercise05: the quality assessment and the QoS effectiveness *)

Module Exercise05SummaryFacts.
Import UInt32 FlowReport Exercise05Summary.

Lemma ltb_1_3 (x : float) : (x <? 1)%float = true → (x <? 3)%float = true.
Proof.
  rewrite !FloatAxioms.ltb_spec.
  change (Prim2SF 1) with (S754_finite false 4503599627370496 (-52)).
  change (Prim2SF 3) with (S754_finite false 6755399441055744 (-51)).
  destruct (Prim2SF x) as [s|s| |s m e]; unfold SFltb, SFcompare; try done.
  destruct s; [done|].
  destruct (Z.compare_spec e (-52)) as [->|Hlt|Hgt]; try done.
  assert ((e ?= -51) = Lt) as -> by (apply Z.compare_lt_iff; lia). done.
Qed.

Lemma is_nan_Prim2SF (x : float) : PrimFloat.is_nan x = true → Prim2SF x = S754_nan.
Proof.
  unfold PrimFloat.is_nan. rewrite FloatAxioms.eqb_spec.
  destruct (Prim2SF x) as [s|s| |s m e]; unfold SFeqb, SFcompare; try done.
  - by destruct s.
  - rewrite Z.compare_refl.
    assert (PosDef.Pos.compare_cont Eq m m = Eq) as Hm by apply Pos.compare_refl.
    rewrite Hm. by destruct s.
Qed.

Lemma ltb_nan (x y : float) : PrimFloat.is_nan x = true → (x <? y)%float = false.
Proof.
  intros Hx. rewrite FloatAxioms.ltb_spec, (is_nan_Prim2SF x Hx). done.
Qed.

(** X9: the overall verdict agrees with the three lines of the quality
    assessment: for all values of average delay, jitter and loss rate the
    quality is called ACCEPTABLE exactly when none of delay, jitter and
    loss is graded POOR; a value that is not a number makes the verdict
    DEGRADED.  When no VoIP packet was received the delay is graded
    EXCELLENT and the jitter ACCEPTABLE all the same (both averages are 0
    then), and when none was sent either, the verdict is ACCEPTABLE. *)
Theorem overall_verdict_agrees_with_grades :
  (∀ d j l : float,
      overall d j l = true
      ↔ delay_grade d ≠ POOR ∧ jitter_grade j ≠ POOR ∧ loss_grade l ≠ POOR)
  ∧ (∀ d j l : float,
      PrimFloat.is_nan d = true ∨ PrimFloat.is_nan j = true ∨ PrimFloat.is_nan l = true →
      overall d j l = false)
  ∧ (∀ t : Totals,
      RxPackets t = 0 →
      delay_grade (AvgDelay t) = EXCELLENT ∧ jitter_grade (AvgJitter t) = ACCEPTABLE)
  ∧ (∀ t : Totals,
      TxPackets t = 0 → RxPackets t = 0 →
      overall (AvgDelay t) (AvgJitter t) (LossRate t) = true).
Proof.
  split; [|split; [|split]].
  - intros d j l. unfold overall, delay_grade, jitter_grade, loss_grade.
    pose proof (ltb_1_3 l) as H13.
    destruct (d <? 150)%float, (d <? 20)%float, (d <? 50)%float, (j <? 30)%float,
             (l <? 1)%float, (l <? 3)%float; cbn;
      try (by split; [intros _; repeat split; discriminate|done]);
      try (by split; [done|intros (? & ? & ?); done]);
      try (by discriminate (H13 eq_refl)).
  - intros d j l Hnan. unfold overall.
    destruct Hnan as [H|[H|H]]; rewrite (ltb_nan _ _ H);
      by rewrite ?andb_false_r.
  - intros t Hrx. unfold AvgDelay, AvgJitter. rewrite Hrx. done.
  - intros t Htx Hrx. unfold AvgDelay, AvgJitter, LossRate. rewrite Htx, Hrx. done.
Qed.

Lemma eqb_zero_Prim2SF (x : float) :
  (x =? 0)%float = true → ∃ s, Prim2SF x = S754_zero s.
Proof.
  rewrite FloatAxioms.eqb_spec. change (Prim2SF 0) with (S754_zero false).
  destruct (Prim2SF x) as [s|s| |s m e]; unfold SFeqb, SFcompare; try done.
  - by exists s.
  - by destruct s.
  - by destruct s.
Qed.

Lemma not_finite_nan (x : float) : Prim2SF x = S754_nan → not_finite x = true.
Proof.
  intros Hx. unfold not_finite, PrimFloat.is_nan.
  by rewrite FloatAxioms.eqb_spec, Hx.
Qed.

Lemma not_finite_infinity (x : float) s : Prim2SF x = S754_infinity s → not_finite x = true.
Proof.
  intros Hx. unfold not_finite, PrimFloat.is_infinity.
  rewrite (FloatAxioms.eqb_spec (abs x)), FloatAxioms.abs_spec, Hx.
  apply orb_true_r.
Qed.

Lemma lossImprovement_not_finite (ftpLossRate voipLossRate : float) :
  (ftpLossRate =? 0)%float = true →
  not_finite (lossImprovement ftpLossRate voipLossRate) = true.
Proof.
  intros [s Hs]%eqb_zero_Prim2SF. unfold lossImprovement.
  pose proof (FloatAxioms.mul_spec ((ftpLossRate - voipLossRate) / ftpLossRate) 100) as Hmul.
  rewrite FloatAxioms.div_spec, FloatAxioms.sub_spec, Hs in Hmul.
  change (Prim2SF 100) with (S754_finite false 7036874417766400 (-46)) in Hmul.
  destruct (Prim2SF voipLossRate) as [sv|sv| |sv m e];
    cbn in Hmul.
  - apply not_finite_nan. rewrite Hmul. by destruct s, sv.
  - by apply not_finite_infinity in Hmul.
  - by apply not_finite_nan.
  - by apply not_finite_infinity in Hmul.
Qed.

(** X10: the loss improvement of the QoS effectiveness block is computed
    with the FTP loss rate as divisor, which the condition of the block
    does not look at.  Whenever the block is entered (QoS enabled, both
    average delays positive) and the FTP loss rate is zero, as it is when
    no FTP packet was lost, the reported loss improvement is infinite or
    not a number, whatever the VoIP loss rate. *)
Theorem loss_improvement_divides_by_ftp_loss
        (voipAvgDelay ftpAvgDelay voipLossRate ftpLossRate : float) :
  (0 <? voipAvgDelay)%float = true → (0 <? ftpAvgDelay)%float = true →
  (ftpLossRate =? 0)%float = true →
  qos_effectiveness true voipAvgDelay ftpAvgDelay voipLossRate ftpLossRate
  = Some (delayImprovement ftpAvgDelay voipAvgDelay,
          ((ftpLossRate - voipLossRate) / ftpLossRate * 100)%float)
  ∧ not_finite ((ftpLossRate - voipLossRate) / ftpLossRate * 100)%float = true.
Proof.
  intros Hv Hf Hzero. unfold qos_effectiveness. rewrite Hv, Hf. split; [done|].
  by apply lossImprovement_not_finite.
Qed.

(** A run in which all 1000 FTP packets arrive (delay sum 8 s) and 2 of
    500 VoIP packets are lost (delay sum 1.5 s). *)
Lemma loss_improvement_divides_by_ftp_loss_no_ftp_loss :
  let voip := mkTotals 500 498 1.5%float 0.25%float in
  let ftp := mkTotals 1000 1000 8%float 1%float in
  (LossRate ftp =? 0)%float = true
  ∧ not_finite ((LossRate ftp - LossRate voip) / LossRate ftp * 100)%float = true.
Proof.
  intros voip ftp. split; [by vm_compute|].
  apply (loss_improvement_divides_by_ftp_loss (AvgDelay voip) (AvgDelay ftp)
           (LossRate voip) (LossRate ftp)); by vm_compute.
Defined.

End Exercise05SummaryFacts.

(** ** exercise06: the attack topology and the packet estimate *)

Module Exercise06AttackFacts.
Import UInt32 Ipv4 Exercise06 Exercise06Attack.

Lemma attackers_at_most_five (requested : Z) :
  is_uint32 requested → (Z.to_nat (limit_attackers requested) ≤ 5)%nat.
Proof. unfold is_uint32, limit_attackers. lia. Qed.

(** X11: the attack topology is well formed for every value of the
    attackers parameter.  Every index the loops of main run through finds
    its attacker node (node 3 + i), its link (router 1 to node 3 + i) and
    its subnet (10.1.(3+i).0): no Get(i) and no attackDevicePairs[i] is out
    of range.  The attacker nodes are distinct from each other and from
    client, router and server, and the attack subnets are distinct from
    each other and from the two main subnets 10.1.1.0 and 10.1.2.0, with a
    third octet from 3 to 7. *)
Theorem attack_topology_well_formed (requested : Z) :
  is_uint32 requested →
  let topo := main_topology requested in
  (∀ i, i ∈ attacker_indices requested →
        attackers topo !! i = Some (3 + i)%nat
        ∧ attackDevicePairs topo !! i = Some (1%nat, (3 + i)%nat)
        ∧ attackNetworks topo !! i = Some (dotted 10 1 (3 + Z.of_nat i) 0))
  ∧ NoDup ([0; 1; 2]%nat ++ attackers topo)
  ∧ NoDup (dotted 10 1 1 0 :: dotted 10 1 2 0 :: attackNetworks topo)
  ∧ Forall (λ net, ∃ c, 3 ≤ c ≤ 7 ∧ net = dotted 10 1 c 0) (attackNetworks topo).
Proof.
  intros Hreq topo. subst topo.
  pose proof (attackers_at_most_five requested Hreq) as Hn.
  unfold main_topology, attacker_indices, Create.
  cbn [attackers attackDevicePairs attackNetworks].
  destruct (Z.to_nat (limit_attackers requested)) as [|[|[|[|[|[|n]]]]]]; [..|lia];
    (split; [|split; [|split]]);
    try (intros i Hi; cbn in Hi;
         repeat (apply elem_of_cons in Hi as [->|Hi]; [by repeat split|]);
         by apply elem_of_nil in Hi);
    try (apply (bool_decide_unpack _); by vm_compute);
    repeat (apply Forall_cons; split;
            [first [ by (exists 3) | by (exists 4) | by (exists 5)
                   | by (exists 6) | by (exists 7) ]|]);
    apply Forall_nil_2.
Qed.

Lemma attack_topology_well_formed_at_9 :
  NoDup (dotted 10 1 1 0 :: dotted 10 1 2 0 :: attackNetworks (main_topology 9))
  ∧ attackDevicePairs (main_topology 9) !! 4%nat = Some (1%nat, 7%nat).
Proof.
  destruct (attack_topology_well_formed 9) as (Hget & _ & Hnets & _);
    [unfold is_uint32; lia|].
  split; [exact Hnets|].
  destruct (Hget 4%nat) as (_ & Hpair & _); [|exact Hpair].
  apply (bool_decide_unpack _). by vm_compute.
Defined.

(** X12: the estimate of the attack volume.  With the attack enabled the
    estimate is 122 packets for each attacker node created, that is
    122 * min(requested, 5), at most 610: the product never wraps in 32
    bits, which it would do without the limit on the attackers.  The 122
    is the whole number of packets of the configured size that the
    configured rate sends between the configured start and stop.  With the
    attack disabled the estimate is 0. *)
Theorem ddos_estimate_counts_attackers (enableDDoSAttack : bool) (requested : Z) :
  is_uint32 requested →
  ddos_estimate enableDDoSAttack requested
  = (if enableDDoSAttack
     then 122 * Z.of_nat (length (attackers (main_topology requested)))
     else 0)
  ∧ (enableDDoSAttack = true → ddos_estimate enableDDoSAttack requested = 122 * Z.min requested 5)
  ∧ 0 ≤ ddos_estimate enableDDoSAttack requested ≤ 610
  ∧ attack_rate * (attack_stop - attack_start) / (attack_packet_size * 8) = 122
  ∧ (35204650 ≤ requested → wrap32 (requested * 122) ≠ requested * 122).
Proof.
  intros [Hlo Hhi]. unfold ddos_estimate, main_topology, limit_attackers, Create, wrap32.
  cbn [attackers]. rewrite length_seq.
  split; [|split; [|split; [|split]]].
  - destruct enableDDoSAttack; [|done]. rewrite Z.mod_small by lia. lia.
  - intros ->. rewrite Z.mod_small by lia. lia.
  - destruct enableDDoSAttack; [|lia]. rewrite Z.mod_small by lia. lia.
  - reflexivity.
  - intros Hbig Heq. apply Z.mod_small_iff in Heq; lia.
Qed.

Lemma ddos_estimate_counts_attackers_at_9 :
  ddos_estimate true 9 = 122 * Z.of_nat (length (attackers (main_topology 9)))
  ∧ ddos_estimate true 9 = 610.
Proof.
  destruct (ddos_estimate_counts_attackers true 9) as (H1 & H2 & _);
    [unfold is_uint32; lia|].
  split; [exact H1|]. rewrite H2 by done. reflexivity.
Defined.

End Exercise06AttackFacts.

(** ** Report loops: divisions by zero *)

Module DivisionFacts.
Import UInt32 FlowReport Exercise05Summary Exercise05SummaryFacts.

Lemma nan_or_infinity_not_finite (x : float) : nan_or_infinity x → not_finite x = true.
Proof.
  intros [Hx|[s Hx]]; [by apply not_finite_nan|by eapply not_finite_infinity].
Qed.

Lemma div_by_zero (y z : float) : is_zero z → nan_or_infinity (y / z)%float.
Proof.
  intros [s Hz]. unfold nan_or_infinity. rewrite FloatAxioms.div_spec, Hz.
  destruct (Prim2SF y) as [sy|sy| |sy m e]; cbn; eauto.
Qed.

Lemma nan_or_infinity_mul (x w : float) :
  nan_or_infinity x → is_finite_nonzero w → nan_or_infinity (x * w)%float.
Proof.
  intros Hx (s & m & e & Hw). unfold nan_or_infinity in *.
  rewrite FloatAxioms.mul_spec, Hw.
  destruct Hx as [->|[sx ->]]; cbn; eauto.
Qed.

Lemma to_double_0_is_zero : is_zero (to_double 0).
Proof. by exists false. Qed.

(** X13: a flow of which exactly one packet was received.  The report
    loops of exercise02 and exercise03 divide its jitter sum by
    rxPackets - 1 = 0: for every such flow, whatever its jitter sum, the
    mean jitter they print is infinite or not a number (exercise03 prints
    it when the flow has sent something, exercise02 always).  The summary
    of exercise05 asks for more than one received packet and gives the
    average jitter 0 for the same counts. *)
Theorem single_packet_flow_jitter (simulationTime : float) (f : FlowStats) :
  rxPackets f = 1 →
  (0 < txPackets f → (not_finite <$> meanJitter (report03 simulationTime f)) = Some true)
  ∧ (not_finite <$> meanJitter (report02 f)) = Some true
  ∧ AvgJitter (mkTotals (txPackets f) (rxPackets f) (delaySum f) (jitterSum f)) = 0%float.
Proof.
  intros Hrx. unfold report03, report02, AvgJitter, jitter_divisor. cbn [RxPackets].
  rewrite Hrx. cbn [Z.ltb Z.compare Z.sub Z.add Z.opp Z.pos_sub]. change (wrap32 0) with 0.
  pose proof (div_by_zero (jitterSum f) (to_double 0) to_double_0_is_zero) as Hdiv.
  split; [|split; [|done]].
  - intros Htx. apply Z.ltb_lt in Htx. rewrite Htx. cbn [meanJitter fmap option_fmap option_map].
    f_equal. by apply nan_or_infinity_not_finite.
  - cbn [meanJitter fmap option_fmap option_map]. f_equal.
    apply nan_or_infinity_not_finite, nan_or_infinity_mul; [done|].
    by exists false, 8796093022208000%positive, (-43).
Qed.

(** A flow with 5 packets sent, 1 received and jitter sum 0.5 s. *)
Lemma single_packet_flow_jitter_5_1 :
  let f := mkFlowStats 5 1 1024 0.25%float 0.5%float in
  (not_finite <$> meanJitter (report03 20 f)) = Some true
  ∧ (not_finite <$> meanJitter (report02 f)) = Some true.
Proof.
  intros f.
  destruct (single_packet_flow_jitter 20 f eq_refl) as (H3 & H2 & _).
  split; [apply H3; cbn; lia|exact H2].
Defined.

End DivisionFacts.

(** ** exercise03: the availability check *)

Module Exercise03SlaFacts.
Import UInt32 FlowReport Exercise03Sla.

Lemma fails_below_spec sent k r received :
  fails_below sent k r = true → r ≤ received < r + Z.of_nat k →
  slaAvailability (packetDeliveryRatio sent received) = false.
Proof.
  revert r. induction k as [|k IH]; intros r Hk Hr; [lia|].
  cbn [fails_below] in Hk. apply andb_true_iff in Hk as [Hhere Hrest].
  destruct (decide (received = r)) as [->|Hne].
  - by apply negb_true_iff in Hhere.
  - apply (IH (r + 1)); [done|lia].
Qed.

Lemma all_or_nothing_spec n s sent :
  all_or_nothing n s = true → s ≤ sent < s + Z.of_nat n →
  slaAvailability (packetDeliveryRatio sent sent) = true
  ∧ fails_below sent (Z.to_nat sent) 0 = true.
Proof.
  revert s. induction n as [|n IH]; intros s Hn Hs; [lia|].
  cbn [all_or_nothing] in Hn.
  apply andb_true_iff in Hn as [[Hall Hless]%andb_true_iff Hrest].
  destruct (decide (sent = s)) as [->|Hne]; [done|].
  apply (IH (s + 1)); [done|lia].
Qed.

Lemma all_or_nothing_MaxPackets : all_or_nothing (Z.to_nat MaxPackets) 1 = true.
Proof. vm_compute. reflexivity. Qed.

(** X14: the availability check of the SLA is all or nothing.  The echo
    client sends at most 1000 packets; for every number of packets sent
    from 1 to 1000 and every number received up to it, the packet delivery
    ratio computed in double precision reaches 99.95 percent exactly when
    every packet sent was received: the loss of a single packet fails the
    check.  When nothing was sent the ratio is 0 and the check fails. *)
Theorem availability_is_all_or_nothing (totalPacketsSent totalPacketsReceived : Z) :
  0 ≤ totalPacketsSent ≤ MaxPackets →
  0 ≤ totalPacketsReceived ≤ totalPacketsSent →
  slaAvailability (packetDeliveryRatio totalPacketsSent totalPacketsReceived) = true
  ↔ 0 < totalPacketsSent ∧ totalPacketsReceived = totalPacketsSent.
Proof.
  intros Hsent Hrecv.
  destruct (decide (totalPacketsSent = 0)) as [->|Hpos].
  { split; [done|lia]. }
  destruct (all_or_nothing_spec (Z.to_nat MaxPackets) 1 totalPacketsSent
              all_or_nothing_MaxPackets) as [Hall Hless]; [lia|].
  split.
  - intros Hpass. split; [lia|].
    destruct (decide (totalPacketsReceived = totalPacketsSent)) as [|Hne]; [done|].
    rewrite (fails_below_spec _ _ _ totalPacketsReceived Hless) in Hpass by lia. done.
  - by intros [_ ->].
Qed.

(** 170 packets sent, as in the default run: with one of them lost the
    check fails. *)
Lemma availability_is_all_or_nothing_170 :
  slaAvailability (packetDeliveryRatio 170 170) = true
  ∧ slaAvailability (packetDeliveryRatio 170 169) = false.
Proof.
  split.
  - apply (availability_is_all_or_nothing 170 170); unfold MaxPackets; lia.
  - destruct (slaAvailability (packetDeliveryRatio 170 169)) eqn:E; [|done].
    apply (availability_is_all_or_nothing 170 169) in E; unfold MaxPackets; lia.
Defined.

End Exercise03SlaFacts.
